(** * Bowyer-Watson Delaunay triangulation (bowyer_watson.go)

    A shallow embedding of the package [bowyer_watson].

    - Go's [float64] is IEEE 754 binary64 with round-to-nearest-even, which
      is Rocq's primitive [float]; every arithmetic operation below is the
      one the source writes, in the same order, each rounded individually
      (no fused multiply-add).
    - A slice is the list of its elements; an indexed update is stdpp's list
      insert, and the source never indexes out of range.
    - A [for] loop is a step function iterated with fuel; a function that
      loops returns an [option], [None] standing for a loop that did not
      finish within its fuel.  The fuel given to each loop is the length of
      the collection it scans, which is shown to suffice. *)

From Stdlib Require Import Floats.
From stdpp Require Import base option list gmap.

Local Open Scope float_scope.

(** ** Geometric primitives *)

(** [type Point struct { X, Y float64 }] *)
Record Point := mkPoint { X : float; Y : float }.

(** Go's [==] on [Point]: field-wise IEEE equality (a NaN differs from
    everything, itself included; [-0 == +0]). *)
Definition Point_eqb (p q : Point) : bool :=
  (X p =? X q) && (Y p =? Y q).

(** [type Triangle struct { A, B, C Point; center Point; radius, radius2 float64 }] *)
Record Triangle := mkTriangle {
  tA : Point; tB : Point; tC : Point;
  center : Point;
  radius : float; radius2 : float
}.

(** A triangle literal [Triangle{A: a, B: b, C: c}]: the unset fields are zero. *)
Definition newTriangle (a b c : Point) : Triangle :=
  mkTriangle a b c (mkPoint 0 0) 0 0.

Definition sqr (x : float) : float := x * x.

(** [func (t *Triangle) CalcCircumCircle()]; the receiver is updated in place,
    here the updated triangle is returned. *)
Definition CalcCircumCircle (t : Triangle) : Triangle :=
  let ab := sqr (X (tA t)) + sqr (Y (tA t)) in
  let cd := sqr (X (tB t)) + sqr (Y (tB t)) in
  let ef := sqr (X (tC t)) + sqr (Y (tC t)) in
  let cx :=
    (ab * (Y (tC t) - Y (tB t)) + cd * (Y (tA t) - Y (tC t)) + ef * (Y (tB t) - Y (tA t)))
    / (X (tA t) * (Y (tC t) - Y (tB t)) + X (tB t) * (Y (tA t) - Y (tC t))
       + X (tC t) * (Y (tB t) - Y (tA t)))
    / 2 in
  let cy :=
    (ab * (X (tC t) - X (tB t)) + cd * (X (tA t) - X (tC t)) + ef * (X (tB t) - X (tA t)))
    / (Y (tA t) * (X (tC t) - X (tB t)) + Y (tB t) * (X (tA t) - X (tC t))
       + Y (tC t) * (X (tB t) - X (tA t)))
    / 2 in
  let r2 := sqr (X (tA t) - cx) + sqr (Y (tA t) - cy) in
  mkTriangle (tA t) (tB t) (tC t) (mkPoint cx cy) (PrimFloat.sqrt r2) r2.

(** [func (t *Triangle) HasVertex(p Point) bool] *)
Definition HasVertex (t : Triangle) (p : Point) : bool :=
  Point_eqb (tA t) p || Point_eqb (tB t) p || Point_eqb (tC t) p.

(** [func (t *Triangle) CircumcircleContains(p Point) bool] *)
Definition CircumcircleContains (t : Triangle) (p : Point) : bool :=
  let dist2 := sqr (X p - X (center t)) + sqr (Y p - Y (center t)) in
  dist2 <=? radius2 t.

(** [type Edge struct { A, B Point }] *)
Record Edge := mkEdge { eA : Point; eB : Point }.

(** [func (e1 Edge) isEqual(e2 Edge) bool] *)
Definition isEqual (e1 e2 : Edge) : bool :=
  Point_eqb (eA e1) (eA e2) && Point_eqb (eB e1) (eB e2)
  || Point_eqb (eA e1) (eB e2) && Point_eqb (eB e1) (eA e2).

Local Close Scope float_scope.

(** ** Loops

    A Go loop [for cond { body }] is a step function on the loop's variables:
    [Done] when the condition fails, [Again s'] with the variables after one
    run of the body otherwise, and [Fail] when a loop nested in the body did
    not finish.  [loop] iterates the step; it answers [None] only when the
    fuel runs out before the condition fails (or the body failed). *)
Inductive Iter (St : Type) : Type :=
| Done : Iter St
| Again : St -> Iter St
| Fail : Iter St.
Arguments Done {St}.
Arguments Again {St} _.
Arguments Fail {St}.

Fixpoint loop {St : Type} (step : St -> Iter St) (fuel : nat) (s : St) : option St :=
  match step s with
  | Done => Some s
  | Fail => None
  | Again s' =>
      match fuel with
      | O => None
      | S fuel' => loop step fuel' s'
      end
  end.

(** Removal by swap-with-last: [n := len(l) - 1; l[i] = l[n]; l = l[:n]].
    The source only runs it with [i < len(l)]. *)
Definition swapRemove {T : Type} (i : nat) (l : list T) : list T :=
  let n := length l - 1 in
  match l !! n with
  | Some last => take n (<[i := last]> l)
  | None => l
  end.

(** ** Sorting

    [sort.Interface], which [pointsByX] implements over a slice of points.
    The methods read and update a state [St] that holds the slice. *)
Record Interface (St : Type) : Type := mkInterface {
  Len : St -> nat;
  Less : St -> nat -> nat -> bool;
  Swap : St -> nat -> nat -> St
}.
Arguments Len {St} _ _.
Arguments Less {St} _ _ _ _.
Arguments Swap {St} _ _ _ _.

(** [func (s pointsByX) Len() int { return len(s) }] *)
Definition pointsByX_Len (s : list Point) : nat := length s.

(** [func (s pointsByX) Swap(i, j int) { s[i], s[j] = s[j], s[i] }] *)
Definition pointsByX_Swap (s : list Point) (i j : nat) : list Point :=
  match s !! i, s !! j with
  | Some p, Some q => <[j := p]> (<[i := q]> s)
  | _, _ => s
  end.

(** [func (s pointsByX) Less(i, j int) bool { return s[i].X < s[j].X }] *)
Definition pointsByX_Less (s : list Point) (i j : nat) : bool :=
  match s !! i, s !! j with
  | Some p, Some q => (X p <? X q)%float
  | _, _ => false
  end.

Definition pointsByX : Interface (list Point) :=
  mkInterface _ pointsByX_Len pointsByX_Less pointsByX_Swap.

Section Sort.
Context {St : Type} (data : Interface St).

(** [for j := i; j > 0 && data.Less(j, j-1); j-- { data.Swap(j, j-1) }] *)
Definition siftStep (s : nat * St) : Iter (nat * St) :=
  match fst s with
  | O => Done
  | S j' =>
      if Less data (snd s) (S j') j'
      then Again (j', Swap data (snd s) (S j') j')
      else Done
  end.

(** [for i := 1; i < n; i++ { ... }] *)
Definition insertionStep (n : nat) (s : nat * St) : Iter (nat * St) :=
  if decide (fst s < n) then
    match loop siftStep (fst s) (fst s, snd s) with
    | Some r => Again (S (fst s), snd r)
    | None => Fail
    end
  else Done.

(** Modelled from the spec: the standard library's [sort.Sort], which is not
    part of the repository ("sort by one coordinate", "processing input
    points sorted by ascending X-coordinate").  It is the insertion sort
    that [sort.Sort] itself runs on a slice of at most 12 elements, through
    the three methods of [data]; on a longer slice the library's result can
    differ from this one only in the order of points that [Less] does not
    separate. *)
Definition sort_Sort (st : St) : option St :=
  let n := Len data st in
  snd <$> loop (insertionStep n) n (1, st).
End Sort.

(** ** The triangulation driver *)

(** *** The scan of the active set for one point (lines 81-100) *)
Record ScanState := mkScan {
  sc_i : nat;
  sc_ts : list Triangle;
  sc_result : list Triangle;
  sc_edges : list Edge
}.

Definition edgesOf (t : Triangle) : list Edge :=
  [mkEdge (tA t) (tB t); mkEdge (tA t) (tC t); mkEdge (tB t) (tC t)].

Definition scanStep (p : Point) (s : ScanState) : Iter ScanState :=
  match sc_ts s !! sc_i s with
  | None => Done
  | Some t =>
      if (X (center t) + radius t <? X p)%float then
        Again (mkScan (sc_i s) (swapRemove (sc_i s) (sc_ts s))
                 (sc_result s ++ [t]) (sc_edges s))
      else if CircumcircleContains t p then
        Again (mkScan (sc_i s) (swapRemove (sc_i s) (sc_ts s)) (sc_result s)
                 (sc_edges s ++ edgesOf t))
      else
        Again (mkScan (S (sc_i s)) (sc_ts s) (sc_result s) (sc_edges s))
  end.

(** *** Edge deduplication (lines 102-112) *)
Record DedupState := mkDedup { dd_i : nat; dd_edges : list Edge }.

(** [for i := j + 1; i < len(edges); { ... }] *)
Definition dedupInnerStep (j : nat) (s : DedupState) : Iter DedupState :=
  match dd_edges s !! j, dd_edges s !! dd_i s with
  | Some ej, Some ei =>
      if negb (isEqual ej ei) then Again (mkDedup (S (dd_i s)) (dd_edges s))
      else Again (mkDedup (dd_i s) (swapRemove (dd_i s) (dd_edges s)))
  | _, _ => Done
  end.

(** [for j := 0; j < len(edges); j++ { ... }]; the state is [(j, edges)]. *)
Definition dedupOuterStep (s : nat * list Edge) : Iter (nat * list Edge) :=
  if decide (fst s < length (snd s)) then
    match loop (dedupInnerStep (fst s)) (length (snd s)) (mkDedup (S (fst s)) (snd s)) with
    | Some r => Again (S (fst s), dd_edges r)
    | None => Fail
    end
  else Done.

Definition dedupEdges (edges : list Edge) : option (list Edge) :=
  snd <$> loop dedupOuterStep (length edges) (0, edges).

(** *** One point insertion (the body of [for _, p := range pts]) *)
Definition insertPoint (p : Point) (st : list Triangle * list Triangle)
  : option (list Triangle * list Triangle) :=
  let '(ts, result) := st in
  s ← loop (scanStep p) (length ts) (mkScan 0 ts result []);
  edges ← dedupEdges (sc_edges s);
  Some (sc_ts s ++ map (fun e => CalcCircumCircle (newTriangle (eA e) (eB e) p)) edges,
        sc_result s).

Fixpoint insertAll (pts : list Point) (st : list Triangle * list Triangle)
  : option (list Triangle * list Triangle) :=
  match pts with
  | [] => Some st
  | p :: pts' => st' ← insertPoint p st; insertAll pts' st'
  end.

(** *** The purge of the super-triangle's vertices (lines 124-133) *)
Definition purgeStep (super : Triangle) (s : nat * list Triangle)
  : Iter (nat * list Triangle) :=
  match snd s !! fst s with
  | None => Done
  | Some t =>
      if negb (HasVertex t (tA super)) && negb (HasVertex t (tB super))
         && negb (HasVertex t (tC super))
      then Again (S (fst s), snd s)
      else Again (fst s, swapRemove (fst s) (snd s))
  end.

Definition purge (super : Triangle) (result : list Triangle) : option (list Triangle) :=
  snd <$> loop (purgeStep super) (length result) (0, result).

(** Lines 69-70 and 76-135: the driver on the sorted copy [pts]. *)
Definition triangulate (pts : list Point) (super : Triangle) : option (list Triangle) :=
  let super := CalcCircumCircle super in
  '(ts, result) ← insertAll pts ([super], []);
  purge super (result ++ ts).

(** [func DelaunayTriangulation(points []Point, super Triangle) []Triangle].
    [None] would mean that some loop did not finish. *)
Definition DelaunayTriangulation (points : list Point) (super : Triangle)
  : option (list Triangle) :=
  pts ← sort_Sort pointsByX points;
  triangulate pts super.






(** ** Memory: the caller's slice

    A [[]Point] slice is the address of its backing array in a memory of
    arrays.  [DelaunayTriangulationAt] is [DelaunayTriangulation] with its
    [points] argument passed as such an address, and lines 72-74 run on the
    memory. *)

(** [pointsByX] over the slice at address [a]: [Swap] writes to that array. *)
Definition pointsByXAt (a : nat) : Interface (gmap nat (list Point)) :=
  mkInterface _
    (fun m => pointsByX_Len (default [] (m !! a)))
    (fun m i j => pointsByX_Less (default [] (m !! a)) i j)
    (fun m i j => alter (fun s => pointsByX_Swap s i j) a m).

(** [make([]Point, n)]: a new array of [n] zero points at an unused address. *)
Definition make (n : nat) (m : gmap nat (list Point)) : nat * gmap nat (list Point) :=
  let a := fresh (dom m) in
  (a, <[a := replicate n (mkPoint 0 0)]> m).

(** [copy(dst, src)]: the first [min(len(dst), len(src))] elements. *)
Definition copy (dst src : nat) (m : gmap nat (list Point)) : gmap nat (list Point) :=
  match m !! dst, m !! src with
  | Some d, Some s => <[dst := take (length d) s ++ drop (length s) d]> m
  | _, _ => m
  end.

Definition DelaunayTriangulationAt
  (m : gmap nat (list Point)) (points : nat) (super : Triangle)
  : option (list Triangle * gmap nat (list Point)) :=
  src ← m !! points;
  let '(pts, m1) := make (length src) m in
  let m2 := copy pts points m1 in
  m3 ← sort_Sort (pointsByXAt pts) m2;
  sorted ← m3 !! pts;
  r ← triangulate sorted super;
  Some (r, m3).

(** * Vocabulary of the properties *)

(** [Reach step s s']: the loop of [step] started in [s] passes through [s']. *)
Inductive Reach {St : Type} (step : St -> Iter St) : St -> St -> Prop :=
| Reach_here s : Reach step s s
| Reach_next s s1 s2 : step s = Again s1 -> Reach step s1 s2 -> Reach step s s2.

(** One iteration makes progress: it either advances the index over an
    unchanged collection, or keeps the index and strictly shrinks the
    collection. *)
Definition progress {St : Type} (idx len : St -> nat) (step : St -> Iter St) (s : St) : Prop :=
  match step s with
  | Done => True
  | Fail => False
  | Again s' =>
      (idx s' = S (idx s) /\ len s' = len s) \/ (idx s' = idx s /\ len s' < len s)
  end.

(** One iteration of a counting loop: the counter, which was within the
    collection, advances, and the collection does not grow. *)
Definition advances {St : Type} (idx len : St -> nat) (step : St -> Iter St) (s : St) : Prop :=
  match step s with
  | Done => True
  | Fail => False
  | Again s' => idx s' = S (idx s) /\ len s' <= len s /\ idx s < len s
  end.

(** The length of the collection that each loop scans. *)
Definition scanLen (s : ScanState) : nat := length (sc_ts s).

Definition dedupLen (s : DedupState) : nat := length (dd_edges s).

Definition edgesLen (s : nat * list Edge) : nat := length (snd s).

Definition purgeLen (s : nat * list Triangle) : nat := length (snd s).

(** Two floating-point values are the same number: both zero (of either
    sign), the same infinity, or the same finite value; never a NaN. *)
Definition sameValue (a b : spec_float) : Prop :=
  match a, b with
  | S754_zero _, S754_zero _ => True
  | S754_infinity s1, S754_infinity s2 => s1 = s2
  | S754_finite s1 m1 e1, S754_finite s2 m2 e2 => s1 = s2 /\ m1 = m2 /\ e1 = e2
  | _, _ => False
  end.

(** [v] is [==] to an endpoint of [e]. *)
Definition inEdge (v : Point) (e : Edge) : bool :=
  Point_eqb v (eA e) || Point_eqb v (eB e).

(** The endpoint sets of [e1] and [e2] coincide under [==]: every endpoint of
    either edge is [==] to an endpoint of the other. *)
Definition sameEndpoints (e1 e2 : Edge) : bool :=
  inEdge (eA e1) e2 && inEdge (eB e1) e2 && inEdge (eA e2) e1 && inEdge (eB e2) e1.


(** The three vertices of [t]. *)
Definition vertices (t : Triangle) : list Point := [tA t; tB t; tC t].

(** The test of line 126: [t] has no vertex [==] to a vertex of [super]. *)
Definition clean (super t : Triangle) : bool :=
  negb (HasVertex t (tA super)) && negb (HasVertex t (tB super))
  && negb (HasVertex t (tC super)).

(** The super-triangle of the package's tests, and four points in convex
    position, strictly inside it, no three of them collinear, listed by
    ascending X. *)
Definition superT : Triangle :=
  newTriangle (mkPoint 0 50) (mkPoint 50 (-50)) (mkPoint (-50) (-50)).

Definition kite : list Point :=
  [mkPoint 0 1; mkPoint 1 2; mkPoint 1.25 0; mkPoint 1.5 1].

(** What [DelaunayTriangulation kite superT] returns: three triangles, for
    four points in convex position. *)
Definition kiteResult : list Triangle :=
  map CalcCircumCircle
    [newTriangle (mkPoint 0 1) (mkPoint 1 2) (mkPoint 1.5 1);
     newTriangle (mkPoint 0 1) (mkPoint 1.25 0) (mkPoint 1.5 1);
     newTriangle (mkPoint 1 2) (mkPoint 1.25 0) (mkPoint 1.5 1)].

(** The cached fields of [t] are those [CalcCircumCircle] computes from its
    vertices: [CalcCircumCircle] has been run on [t]. *)
Definition Computed (t : Triangle) : Prop := CalcCircumCircle t = t.

(** Every triangle of the active set and of the result is [Computed]. *)
Definition allComputed (st : list Triangle * list Triangle) : Prop :=
  Forall Computed (fst st) /\ Forall Computed (snd st).

(** How many entries of [l] are equal to [e]. *)
Definition occurrences (e : Edge) (l : list Edge) : nat :=
  length (List.filter (isEqual e) l).

(** Twice the signed area of the triangle [a b c]. *)
Definition orient (a b c : Point) : float :=
  ((X b - X a) * (Y c - Y a) - (Y b - Y a) * (X c - X a))%float.

(** [p] lies strictly inside [super]: strictly on the same side of its three
    edges. *)
Definition strictlyInside (super : Triangle) (p : Point) : bool :=
  let d1 := orient (tA super) (tB super) p in
  let d2 := orient (tB super) (tC super) p in
  let d3 := orient (tC super) (tA super) p in
  ((0 <? d1) && (0 <? d2) && (0 <? d3) || (d1 <? 0) && (d2 <? 0) && (d3 <? 0))%float.

Fixpoint noCollinearWith (a : Point) (l : list Point) : bool :=
  match l with
  | [] => true
  | b :: l' => forallb (fun c => negb (orient a b c =? 0)%float) l' && noCollinearWith a l'
  end.

Fixpoint noThreeCollinear (l : list Point) : bool :=
  match l with
  | [] => true
  | a :: l' => noCollinearWith a l' && noThreeCollinear l'
  end.

Fixpoint noDuplicates (l : list Point) : bool :=
  match l with
  | [] => true
  | a :: l' => forallb (fun b => negb (Point_eqb a b)) l' && noDuplicates l'
  end.

(** The precondition of the spec: all points strictly inside the
    super-triangle, no three collinear, no two equal. *)
Definition validInput (points : list Point) (super : Triangle) : bool :=
  forallb (strictlyInside super) points && noThreeCollinear points
  && noDuplicates points.

(** The Delaunay property of [t] among [points]: its circumcircle contains,
    under the boundary-inclusive test, no point other than its vertices. *)
Definition emptyCircumcircle (points : list Point) (t : Triangle) : bool :=
  forallb (fun p => HasVertex t p || negb (CircumcircleContains t p)) points.




(** The early-finalization test of line 83. *)
Definition passed (p : Point) (t : Triangle) : bool :=
  (X (center t) + radius t <? X p)%float.

(** The scan with an arbitrary early test; [scanStep] and [scanStepNaive]
    are its two instances. *)
Definition scanStepWith (early : Triangle -> bool) (p : Point) (s : ScanState)
  : Iter ScanState :=
  match sc_ts s !! sc_i s with
  | None => Done
  | Some t =>
      if early t then
        Again (mkScan (sc_i s) (swapRemove (sc_i s) (sc_ts s))
                 (sc_result s ++ [t]) (sc_edges s))
      else if CircumcircleContains t p then
        Again (mkScan (sc_i s) (swapRemove (sc_i s) (sc_ts s)) (sc_result s)
                 (sc_edges s ++ edgesOf t))
      else
        Again (mkScan (S (sc_i s)) (sc_ts s) (sc_result s) (sc_edges s))
  end.


(** Two loops whose steps agree on related states end in related states. *)
Definition simIter {S1 S2 : Type} (R : S1 -> S2 -> Prop) (a : Iter S1) (b : Iter S2) : Prop :=
  match a, b with
  | Done, Done => True
  | Again x, Again y => R x y
  | Fail, Fail => True
  | _, _ => False
  end.

Definition simOption {S1 S2 : Type} (R : S1 -> S2 -> Prop) (a : option S1) (b : option S2)
  : Prop :=
  match a, b with
  | Some x, Some y => R x y
  | None, None => True
  | _, _ => False
  end.

(** The memory [m] holds the slice [l] at address [a] and is [m0] elsewhere. *)
Definition holds (a : nat) (m0 m : gmap nat (list Point)) (l : list Point) : Prop :=
  m !! a = Some l /\ forall b, b <> a -> m !! b = m0 !! b.

Definition holdsAt (a : nat) (m0 : gmap nat (list Point))
  (s : nat * gmap nat (list Point)) (t : nat * list Point) : Prop :=
  fst s = fst t /\ holds a m0 (snd s) (snd t).

(** ** Vocabulary of the further properties *)

(** No two entries of [l] are equal edges. *)
Definition pairwiseDistinct (l : list Edge) : Prop :=
  forall a b ea eb, a < b -> l !! a = Some ea -> l !! b = Some eb -> isEqual ea eb = false.

(** [v] is a vertex of the super-triangle or one of the points. *)
Definition knownVertex (points : list Point) (super : Triangle) (v : Point) : Prop :=
  v ∈ points \/ v ∈ vertices super.

(** The triangle on which the scan of [p] acts neither way: it does not pass
    the early-finalization test and does not contain [p]. *)
Definition untouched (p : Point) (t : Triangle) : Prop :=
  passed p t = false /\ CircumcircleContains t p = false.

(** What the scan of [ts] for [p], started with [result], has done when it
    is in state [s]: [fin] are the triangles it has finalized, [inv] those it
    has invalidated, and with the triangles still in the active set they make
    up [ts]. *)
Definition scanSplit (p : Point) (ts result : list Triangle) (s : ScanState)
  (fin inv : list Triangle) : Prop :=
  sc_result s = result ++ fin
  /\ sc_edges s = inv ≫= edgesOf
  /\ ts ≡ₚ sc_ts s ++ fin ++ inv
  /\ Forall (fun t => passed p t = true) fin
  /\ Forall (fun t => passed p t = false /\ CircumcircleContains t p = true) inv.

(** The triangle that line 115 forms on the edge [e] for the point [p]. *)
Definition formed (p : Point) (e : Edge) : Triangle :=
  CalcCircumCircle (newTriangle (eA e) (eB e) p).

(** Every vertex of every triangle of the state is a point of [pts] or a
    vertex of [super]. *)
Definition knownTriangles (pts : list Point) (super : Triangle)
  (st : list Triangle * list Triangle) : Prop :=
  forall t v, t ∈ fst st ++ snd st -> v ∈ vertices t -> knownVertex pts super v.

(** The first [n] vertices of [t] (in the order A, B, C) are vertices of
    [super]. *)
Definition anchored (super : Triangle) (n : nat) (t : Triangle) : Prop :=
  forall v, v ∈ take n (vertices t) -> v ∈ vertices super.

(** The invariant of the inner deduplication loop for [j], started at
    [i = j+1] on the list [l] with [l[j] = ej]: the entries up to [j] are
    untouched, the list is a selection of [l], no entry between [j] and [i]
    equals [ej], every edge of [l] is still there or equals [ej], and every
    entry comes from its own or a later index of [l]. *)
Definition dedupInnerInv (j : nat) (l : list Edge) (ej : Edge) (s : DedupState) : Prop :=
  j < dd_i s
  /\ (forall k, k <= j -> dd_edges s !! k = l !! k)
  /\ dd_edges s ⊆+ l
  /\ (forall b eb, j < b -> b < dd_i s -> dd_edges s !! b = Some eb -> isEqual ej eb = false)
  /\ (forall e, e ∈ l -> e ∈ dd_edges s \/ isEqual ej e = true)
  /\ (forall b x, dd_edges s !! b = Some x -> exists b', b <= b' /\ l !! b' = Some x).

(** * Properties *)

(** ** Loops: reachable states, invariants, termination *)
Section LoopFacts.
Context {St : Type} (step : St -> Iter St).

Lemma Reach_invariant (Inv : St -> Prop) :
  (forall s s', Inv s -> step s = Again s' -> Inv s') ->
  forall s s', Reach step s s' -> Inv s -> Inv s'.
Proof. intros Hstep s s' Hr. induction Hr; eauto. Qed.

Lemma loop_Reach fuel s s' :
  loop step fuel s = Some s' -> Reach step s s' /\ step s' = Done.
Proof.
  revert s. induction fuel as [|fuel IH]; intros s; simpl;
    destruct (step s) as [|s1|] eqn:E; intros H; try discriminate.
  - injection H as <-. split; [constructor | done].
  - injection H as <-. split; [constructor | done].
  - destruct (IH _ H) as [Hr Hd]. split; [econstructor; eauto | done].
Qed.

Lemma loop_invariant (Inv : St -> Prop) fuel s s' :
  (forall s s', Inv s -> step s = Again s' -> Inv s') ->
  Inv s -> loop step fuel s = Some s' -> Inv s' /\ step s' = Done.
Proof.
  intros Hstep Hs Hl. destruct (loop_Reach _ _ _ Hl) as [Hr Hd].
  split; [eapply Reach_invariant; eauto | done].
Qed.

(** A loop whose body never fails and strictly decreases a measure finishes
    within that measure's number of iterations. *)
Lemma loop_terminates (m : St -> nat) :
  (forall s, step s <> Fail) ->
  (forall s s', step s = Again s' -> m s' < m s) ->
  forall fuel s, m s <= fuel -> is_Some (loop step fuel s).
Proof.
  intros Hfail Hdec fuel. induction fuel as [|fuel IH]; intros s Hm; simpl;
    destruct (step s) as [|s1|] eqn:E; eauto.
  - apply Hdec in E. lia.
  - by apply Hfail in E.
  - apply IH. apply Hdec in E. lia.
  - by apply Hfail in E.
Qed.
End LoopFacts.

(** ** Removal by swap-with-last *)
Section SwapRemove.
Context {T : Type}.
Implicit Types (l : list T) (i k : nat).

Lemma swapRemove_length i l : length (swapRemove i l) = length l - 1.
Proof.
  unfold swapRemove. destruct (l !! (length l - 1)) as [x|] eqn:E.
  - rewrite length_take, length_insert. lia.
  - apply lookup_ge_None_1 in E. lia.
Qed.

Lemma swapRemove_snoc i l x :
  swapRemove i (l ++ [x]) = if decide (i < length l) then <[i := x]> l else l.
Proof.
  unfold swapRemove. rewrite length_app. simpl.
  replace (length l + 1 - 1) with (length l) by lia.
  rewrite list_lookup_middle by done.
  destruct (decide (i < length l)).
  - rewrite insert_app_l by done.
    rewrite take_app_length'; [done | by rewrite length_insert].
  - destruct (decide (i = length l)) as [->|].
    + (* [i = len - 1]: the last element overwrites itself *)
      replace (length l) with (length l + 0) at 2 by lia.
      rewrite insert_app_r. simpl. by rewrite take_app_length.
    + rewrite list_insert_ge by (rewrite length_app; simpl; lia).
      by rewrite take_app_length.
Qed.

(** Every list on which the body runs is [l' ++ [x]]. *)
Lemma lookup_snoc_inv l i t :
  l !! i = Some t -> exists l' x, l = l' ++ [x] /\ i <= length l'.
Proof.
  intros H. destruct (last l) as [x|] eqn:E.
  - apply last_Some in E as [l' ->]. exists l', x. split; [done|].
    apply lookup_lt_Some in H. rewrite length_app in H. simpl in H. lia.
  - apply last_None in E as ->. done.
Qed.

Lemma swapRemove_lookup_lt i k l :
  i < length l -> k < i -> swapRemove i l !! k = l !! k.
Proof.
  intros Hi Hk. destruct (lookup_lt_is_Some_2 l i Hi) as [t Ht].
  destruct (lookup_snoc_inv _ _ _ Ht) as (l' & x & -> & Hle).
  rewrite swapRemove_snoc. rewrite lookup_app_l by lia.
  case_decide; [by rewrite list_lookup_insert_ne by lia | done].
Qed.

Lemma swapRemove_Permutation i l t :
  l !! i = Some t -> l ≡ₚ t :: swapRemove i l.
Proof.
  intros Ht. destruct (lookup_snoc_inv _ _ _ Ht) as (l' & x & -> & Hle).
  rewrite swapRemove_snoc. case_decide as Hlt.
  - rewrite lookup_app_l in Ht by done.
    apply list_elem_of_split_length in Ht as (l1 & l2 & -> & ->).
    rewrite insert_app_r_alt by done.
    replace (length l1 - length l1) with 0 by lia. simpl.
    rewrite <- app_assoc. simpl. rewrite <- !Permutation_middle.
    by rewrite app_nil_r.
  - assert (i = length l') as -> by lia.
    rewrite list_lookup_middle in Ht by done. injection Ht as ->.
    symmetry. apply Permutation_cons_append.
Qed.

Lemma swapRemove_elem_of i l x : x ∈ swapRemove i l -> x ∈ l.
Proof.
  unfold swapRemove. destruct (l !! (length l - 1)) as [y|] eqn:E; [|done].
  intros H%subseteq_take. apply list_elem_of_lookup in H as [k Hk].
  apply list_lookup_insert_Some in Hk as [(-> & -> & _)|[_ Hk]];
    eapply list_elem_of_lookup_2; eauto.
Qed.
End SwapRemove.

(** ** Termination *)

Lemma progress_terminates {St : Type} (idx len : St -> nat) (step : St -> Iter St) :
  (forall s, progress idx len step s) ->
  (forall s s', step s = Again s' -> idx s < len s) ->
  forall fuel s, len s - idx s <= fuel -> is_Some (loop step fuel s).
Proof.
  intros Hp Hlt. apply (loop_terminates step (fun s => len s - idx s)).
  - intros s E. specialize (Hp s). unfold progress in Hp. by rewrite E in Hp.
  - intros s s' E. specialize (Hp s). specialize (Hlt _ _ E).
    unfold progress in Hp. rewrite E in Hp. lia.
Qed.

Lemma scanStepWith_progress early p s : progress sc_i scanLen (scanStepWith early p) s.
Proof.
  unfold progress, scanStepWith, scanLen.
  destruct (sc_ts s !! sc_i s) as [t|] eqn:E; [|done].
  apply lookup_lt_Some in E.
  destruct (early t); [|destruct (CircumcircleContains t p)];
    simpl; rewrite ?swapRemove_length; lia.
Qed.

Lemma scanStep_progress p s : progress sc_i scanLen (scanStep p) s.
Proof. apply (scanStepWith_progress (passed p)). Qed.

Lemma scanStepWith_total early p ts result edges :
  is_Some (loop (scanStepWith early p) (length ts) (mkScan 0 ts result edges)).
Proof.
  apply (progress_terminates sc_i scanLen).
  - apply scanStepWith_progress.
  - intros s s'. unfold scanStepWith, scanLen.
    destruct (sc_ts s !! sc_i s) as [t|] eqn:E; [|done].
    intros _. by apply lookup_lt_Some in E.
  - unfold scanLen. simpl. lia.
Qed.

Lemma scan_total p ts result edges :
  is_Some (loop (scanStep p) (length ts) (mkScan 0 ts result edges)).
Proof. apply (scanStepWith_total (passed p)). Qed.


Lemma dedupInnerStep_progress j s : progress dd_i dedupLen (dedupInnerStep j) s.
Proof.
  unfold progress, dedupInnerStep, dedupLen.
  destruct (dd_edges s !! j) as [ej|]; [|done].
  destruct (dd_edges s !! dd_i s) as [ei|] eqn:E; [|done].
  apply lookup_lt_Some in E.
  destruct (negb _); simpl; rewrite ?swapRemove_length; lia.
Qed.

Lemma dedupInnerStep_Again_lt j s s' :
  dedupInnerStep j s = Again s' -> dd_i s < dedupLen s.
Proof.
  unfold dedupInnerStep, dedupLen.
  destruct (dd_edges s !! j) as [ej|]; [|done].
  destruct (dd_edges s !! dd_i s) as [ei|] eqn:E; [|done].
  intros _. by apply lookup_lt_Some in E.
Qed.

Lemma dedupInner_total j i edges :
  is_Some (loop (dedupInnerStep j) (length edges) (mkDedup i edges)).
Proof.
  apply (progress_terminates dd_i dedupLen).
  - apply dedupInnerStep_progress.
  - apply dedupInnerStep_Again_lt.
  - unfold dedupLen. simpl. lia.
Qed.

(** The inner loop never lengthens the edge list. *)
Lemma dedupInner_length j fuel s r :
  loop (dedupInnerStep j) fuel s = Some r -> dedupLen r <= dedupLen s.
Proof.
  intros H.
  apply (loop_invariant _ (fun s' => dedupLen s' <= dedupLen s)) in H as [H _]; [done| |done].
  intros s1 s2 Hle E. pose proof (dedupInnerStep_progress j s1) as Hp.
  unfold progress in Hp. rewrite E in Hp. lia.
Qed.

Lemma dedupOuterStep_advances s : advances fst edgesLen dedupOuterStep s.
Proof.
  unfold advances, edgesLen, dedupOuterStep. case_decide as Hlt; [|done].
  destruct (dedupInner_total (fst s) (S (fst s)) (snd s)) as [r Hr]. rewrite Hr. simpl.
  apply dedupInner_length in Hr. unfold dedupLen in Hr. simpl in Hr. done.
Qed.

Lemma dedupEdges_total edges : is_Some (dedupEdges edges).
Proof.
  unfold dedupEdges. apply fmap_is_Some.
  apply (loop_terminates _ (fun s => edgesLen s - fst s)).
  - intros s E. pose proof (dedupOuterStep_advances s) as H.
    unfold advances in H. by rewrite E in H.
  - intros s s' E. pose proof (dedupOuterStep_advances s) as H.
    unfold advances in H. rewrite E in H. lia.
  - unfold edgesLen. simpl. lia.
Qed.

Lemma purgeStep_progress super s : progress fst purgeLen (purgeStep super) s.
Proof.
  unfold progress, purgeStep, purgeLen.
  destruct (snd s !! fst s) as [t|] eqn:E; [|done].
  apply lookup_lt_Some in E.
  destruct (_ && _); simpl; rewrite ?swapRemove_length; lia.
Qed.

Lemma purge_total super result : is_Some (purge super result).
Proof.
  unfold purge. apply fmap_is_Some.
  apply (progress_terminates fst purgeLen).
  - apply purgeStep_progress.
  - unfold purgeStep, purgeLen. intros s s'.
    destruct (snd s !! fst s) as [t|] eqn:E; [|done].
    intros _. by apply lookup_lt_Some in E.
  - unfold purgeLen. simpl. lia.
Qed.

Lemma insertPoint_total p st : is_Some (insertPoint p st).
Proof.
  destruct st as [ts result]. unfold insertPoint.
  destruct (scan_total p ts result []) as [s ->]. simpl.
  destruct (dedupEdges_total (sc_edges s)) as [e ->]. simpl. eauto.
Qed.

Lemma insertAll_total pts st : is_Some (insertAll pts st).
Proof.
  revert st. induction pts as [|p pts IH]; intros st; simpl; [eauto|].
  destruct (insertPoint_total p st) as [st' ->]. simpl. apply IH.
Qed.

Lemma triangulate_total pts super : is_Some (triangulate pts super).
Proof.
  unfold triangulate.
  destruct (insertAll_total pts ([CalcCircumCircle super], [])) as [[ts result] ->].
  simpl. apply purge_total.
Qed.

Section SortTermination.
Context {St : Type} (data : Interface St).

Lemma sift_total i st : is_Some (loop (siftStep data) i (i, st)).
Proof.
  apply (loop_terminates _ fst); [| |done].
  - intros [j s]. unfold siftStep. simpl. destruct j; [done|]. by case_match.
  - intros [j s] s'. unfold siftStep. simpl. destruct j; [done|].
    case_match; [|done]. intros [= <-]. simpl. lia.
Qed.

Lemma sort_Sort_total st : is_Some (sort_Sort data st).
Proof.
  unfold sort_Sort. apply fmap_is_Some.
  apply (loop_terminates _ (fun s => Len data st - fst s)).
  - intros s. unfold insertionStep. case_decide; [|done].
    by destruct (sift_total (fst s) (snd s)) as [r ->].
  - intros s s'. unfold insertionStep. case_decide; [|done].
    destruct (sift_total (fst s) (snd s)) as [r ->]. intros [= <-]. simpl. lia.
  - simpl. lia.
Qed.
End SortTermination.

(** C7.  [DelaunayTriangulation] runs to completion on every points list and
    every super triangle, whatever the coordinates are (collinear, duplicate,
    out-of-bounds, infinite or NaN): no loop of the model runs out of fuel.
    The scan of the active set, the inner edge-deduplication loop and the
    final purge make progress at every iteration: the index advances, or the
    scanned collection strictly shrinks; the outer edge-deduplication loop
    advances its counter over a list that does not grow. *)
Theorem DelaunayTriangulation_terminates (points : list Point) (super : Triangle) :
  is_Some (DelaunayTriangulation points super)
  /\ (forall p s, progress sc_i scanLen (scanStep p) s)
  /\ (forall j s, progress dd_i dedupLen (dedupInnerStep j) s)
  /\ (forall s, advances fst edgesLen dedupOuterStep s)
  /\ (forall s, progress fst purgeLen (purgeStep (CalcCircumCircle super)) s).
Proof.
  split; [|split; [|split; [|split]]]; [| | |apply dedupOuterStep_advances|].
  - unfold DelaunayTriangulation.
    destruct (sort_Sort_total pointsByX points) as [pts ->]. simpl.
    apply triangulate_total.
  - apply scanStep_progress.
  - apply dedupInnerStep_progress.
  - intros s. apply purgeStep_progress.
Qed.

(** ** Floating-point comparisons

    The comparisons of [float64] are specified through [Prim2SF]; IEEE
    equality is an equivalence relation on the values that are not NaN, and
    it holds of no NaN. *)
Section FloatFacts.
Local Open Scope float_scope.

Lemma SFeqb_sameValue a b : SFeqb a b = true <-> sameValue a b.
Proof.
  unfold SFeqb.
  destruct a as [sa|sa| |sa ma ea], b as [sb|sb| |sb mb eb]; simpl;
    try (intuition congruence);
    try (destruct sa; intuition congruence);
    try (destruct sb; intuition congruence);
    try (destruct sa, sb; intuition congruence).
  change (Pos.compare_cont Eq ma mb) with (Pos.compare ma mb).
  destruct sa, sb; try (intuition congruence);
    destruct (Z.compare_spec ea eb) as [->| |];
    try (split; [done | intros (_ & _ & ?); lia]);
    destruct (Pos.compare_spec ma mb) as [->| |]; simpl;
    try (split; [done | intros (_ & ? & _); lia]); done.
Qed.

Lemma sameValue_sym a b : sameValue a b -> sameValue b a.
Proof. destruct a, b; simpl; intuition congruence. Qed.

Lemma sameValue_trans a b c : sameValue a b -> sameValue b c -> sameValue a c.
Proof. destruct a, b, c; simpl; intuition congruence. Qed.

Lemma sameValue_refl_l a b : sameValue a b -> sameValue a a.
Proof. destruct a, b; simpl; intuition congruence. Qed.

Lemma float_eqb_sym x y : (x =? y) = (y =? x).
Proof.
  apply Bool.eq_iff_eq_true. rewrite !FloatAxioms.eqb_spec, !SFeqb_sameValue.
  split; apply sameValue_sym.
Qed.

Lemma float_eqb_trans x y z :
  (x =? y) = true -> (y =? z) = true -> (x =? z) = true.
Proof. rewrite !FloatAxioms.eqb_spec, !SFeqb_sameValue. apply sameValue_trans. Qed.

Lemma float_eqb_refl_l x y : (x =? y) = true -> (x =? x) = true.
Proof. rewrite !FloatAxioms.eqb_spec, !SFeqb_sameValue. apply sameValue_refl_l. Qed.

(** [<=] is [<] or [==]. *)
Lemma float_leb_ltb_eqb x y : (x <=? y) = (x <? y) || (x =? y).
Proof.
  rewrite FloatAxioms.leb_spec, FloatAxioms.ltb_spec, FloatAxioms.eqb_spec.
  unfold SFleb, SFltb, SFeqb. by destruct (SFcompare _ _) as [[]|].
Qed.

Lemma SFcompare_refl a : SFcompare a a = Some Eq \/ SFcompare a a = None.
Proof.
  destruct a as [s|s| |s m e]; simpl; auto; try (destruct s; auto).
  all: rewrite Z.compare_refl;
    change (Pos.compare_cont Eq m m) with (Pos.compare m m);
    rewrite Pos.compare_refl; auto.
Qed.

Lemma float_ltb_irrefl x : (x <? x) = false.
Proof.
  rewrite FloatAxioms.ltb_spec. unfold SFltb.
  by destruct (SFcompare_refl (Prim2SF x)) as [-> | ->].
Qed.

Lemma Point_eqb_sym p q : Point_eqb p q = Point_eqb q p.
Proof. unfold Point_eqb. by rewrite (float_eqb_sym (X p)), (float_eqb_sym (Y p)). Qed.

Lemma Point_eqb_trans p q r :
  Point_eqb p q = true -> Point_eqb q r = true -> Point_eqb p r = true.
Proof.
  unfold Point_eqb. rewrite !andb_true_iff. intros [? ?] [? ?].
  split; eapply float_eqb_trans; eauto.
Qed.

Lemma Point_eqb_refl_l p q : Point_eqb p q = true -> Point_eqb p p = true.
Proof.
  unfold Point_eqb. rewrite !andb_true_iff. intros [? ?].
  split; eapply float_eqb_refl_l; eauto.
Qed.

Lemma Point_eqb_refl_r p q : Point_eqb p q = true -> Point_eqb q q = true.
Proof. rewrite Point_eqb_sym. apply Point_eqb_refl_l. Qed.
End FloatFacts.

(** ** Edge equality *)

Lemma Point_eqb_irrefl_l p q : Point_eqb p p = false -> Point_eqb p q = false.
Proof.
  intros H. destruct (Point_eqb p q) eqn:E; [|done].
  apply Point_eqb_refl_l in E. congruence.
Qed.

Lemma Point_eqb_irrefl_r p q : Point_eqb p p = false -> Point_eqb q p = false.
Proof. rewrite (Point_eqb_sym q p). apply Point_eqb_irrefl_l. Qed.

Lemma isEqual_sym e1 e2 : isEqual e1 e2 = isEqual e2 e1.
Proof.
  unfold isEqual.
  rewrite (Point_eqb_sym (eA e2) (eA e1)), (Point_eqb_sym (eB e2) (eB e1)),
    (Point_eqb_sym (eA e2) (eB e1)), (Point_eqb_sym (eB e2) (eA e1)).
  by destruct (Point_eqb (eA e1) (eA e2)), (Point_eqb (eB e1) (eB e2)),
    (Point_eqb (eA e1) (eB e2)), (Point_eqb (eB e1) (eA e2)).
Qed.

Lemma isEqual_sameEndpoints e1 e2 : isEqual e1 e2 = sameEndpoints e1 e2.
Proof.
  unfold isEqual, sameEndpoints, inEdge.
  rewrite (Point_eqb_sym (eA e2) (eA e1)), (Point_eqb_sym (eB e2) (eB e1)),
    (Point_eqb_sym (eA e2) (eB e1)), (Point_eqb_sym (eB e2) (eA e1)).
  by destruct (Point_eqb (eA e1) (eA e2)), (Point_eqb (eB e1) (eB e2)),
    (Point_eqb (eA e1) (eB e2)), (Point_eqb (eB e1) (eA e2)).
Qed.

Lemma isEqual_reversed a b :
  isEqual (mkEdge a b) (mkEdge b a) = Point_eqb a a && Point_eqb b b.
Proof.
  unfold isEqual. simpl. rewrite (Point_eqb_sym b a).
  destruct (Point_eqb a a) eqn:Ea.
  - destruct (Point_eqb b b) eqn:Eb; simpl.
    + by rewrite orb_true_r.
    + by rewrite (Point_eqb_irrefl_r b a Eb).
  - by rewrite (Point_eqb_irrefl_l a b Ea).
Qed.

(** C9, counterexample.  An edge with a NaN endpoint is not equal to its own
    reversal. *)
Lemma isEqual_reversed_counterexample :
  isEqual (mkEdge (mkPoint nan 0) (mkPoint 0 0)) (mkEdge (mkPoint 0 0) (mkPoint nan 0))
  = false.
Proof. vm_compute. reflexivity. Qed.

(** C9, amended.  [Edge{A,B}] is equal to [Edge{B,A}] exactly when [A] and
    [B] are each [==] to themselves (no NaN coordinate); [isEqual] is
    symmetric in its two edges; and [isEqual e1 e2] holds exactly when the
    endpoint sets of [e1] and [e2] coincide under [==]. *)
Theorem isEqual_spec (a b : Point) (e1 e2 : Edge) :
  isEqual (mkEdge a b) (mkEdge b a) = Point_eqb a a && Point_eqb b b
  /\ isEqual e1 e2 = isEqual e2 e1
  /\ isEqual e1 e2 = sameEndpoints e1 e2.
Proof.
  split; [apply isEqual_reversed|]. split; [apply isEqual_sym|].
  apply isEqual_sameEndpoints.
Qed.

(** ** Circumcircle containment *)


(** ** The purge of the super-triangle's vertices *)

Lemma clean_vertices super t v w :
  clean super t = true -> v ∈ vertices t -> w ∈ vertices super ->
  Point_eqb v w = false.
Proof.
  unfold clean, HasVertex, vertices.
  rewrite !andb_true_iff, !negb_true_iff, !orb_false_iff.
  intros [[[[? ?] ?] [[? ?] ?]] [[? ?] ?]] Hv Hw.
  apply list_elem_of_In in Hv, Hw. simpl in Hv, Hw.
  intuition (subst; assumption).
Qed.

Lemma purge_spec super l r :
  purge super l = Some r ->
  forall t, t ∈ r -> t ∈ l /\ clean super t = true.
Proof.
  unfold purge. intros H. apply fmap_Some in H as ([i r'] & H & ->). simpl.
  apply (loop_invariant _ (fun s =>
    (forall t, t ∈ snd s -> t ∈ l) /\
    (forall k t, k < fst s -> snd s !! k = Some t -> clean super t = true)))
    in H as [[Hsub Hpre] Hdone].
  - intros t Ht. split; [by apply Hsub|].
    apply list_elem_of_lookup in Ht as [k Hk]. apply (Hpre k); [|done].
    unfold purgeStep in Hdone. simpl in Hdone.
    destruct (r' !! i) as [u|] eqn:E.
    + by destruct (_ && _).
    + apply lookup_ge_None_1 in E. apply lookup_lt_Some in Hk. simpl. lia.
  - intros [j m] s' [Hsub Hpre]. unfold purgeStep. simpl in *.
    destruct (m !! j) as [u|] eqn:E; [|done].
    fold (clean super u). destruct (clean super u) eqn:Ec; intros [= <-]; simpl.
    + split; [done|]. intros k t Hk Ht.
      destruct (decide (k = j)) as [->|]; [congruence|]. apply (Hpre k); [lia|done].
    + split.
      * intros t Ht. apply Hsub. by eapply swapRemove_elem_of.
      * intros k t Hk Ht. apply (Hpre k); [done|].
        rewrite swapRemove_lookup_lt in Ht; [done| |done]. by eapply lookup_lt_Some.
  - simpl. split; [done|]. intros k t Hk. lia.
Qed.



(** C8, counterexample.  A super-triangle all of whose vertices have a NaN
    coordinate is [==] to nothing, itself included: the purge keeps it, and
    the result for no points is that triangle, not the empty list. *)
Lemma DelaunayTriangulation_empty_counterexample :
  DelaunayTriangulation []
    (newTriangle (mkPoint nan 0) (mkPoint nan 0) (mkPoint nan 0))
  = Some [CalcCircumCircle (newTriangle (mkPoint nan 0) (mkPoint nan 0) (mkPoint nan 0))].
Proof. vm_compute. reflexivity. Qed.

Lemma HasVertex_self_false (t : Triangle) (w : Point) :
  existsb (fun v => Point_eqb v v) (vertices t) = false ->
  HasVertex t w = false.
Proof.
  simpl. rewrite !orb_false_iff. intros (Ha & Hb & Hc & _). unfold HasVertex.
  by rewrite (Point_eqb_irrefl_l _ w Ha), (Point_eqb_irrefl_l _ w Hb),
    (Point_eqb_irrefl_l _ w Hc).
Qed.

Lemma clean_self (super : Triangle) :
  clean super super = negb (existsb (fun v => Point_eqb v v) (vertices super)).
Proof.
  destruct (existsb _ _) eqn:E.
  - simpl in E. unfold clean, HasVertex. simpl.
    destruct (Point_eqb (tA super) (tA super)); [done|].
    destruct (Point_eqb (tB super) (tB super));
      [by rewrite !orb_true_r, ?andb_false_r|].
    destruct (Point_eqb (tC super) (tC super)); [|done].
    by rewrite !orb_true_r, ?andb_false_r.
  - unfold clean. by rewrite !HasVertex_self_false.
Qed.

Lemma purge_singleton (super t : Triangle) :
  purge super [t] = Some (if clean super t then [t] else []).
Proof.
  unfold purge. simpl. unfold purgeStep at 1. simpl. fold (clean super t).
  by destruct (clean super t).
Qed.

(** C8, amended.  For an empty points list the result is empty exactly when
    some vertex of the super-triangle is [==] to itself, that is, has no NaN
    coordinate; otherwise the result is the super-triangle alone. *)
Theorem DelaunayTriangulation_empty (super : Triangle) :
  DelaunayTriangulation [] super
  = Some (if existsb (fun v => Point_eqb v v) (vertices super)
          then [] else [CalcCircumCircle super]).
Proof.
  unfold DelaunayTriangulation.
  change (sort_Sort pointsByX []) with (Some (@nil Point)).
  unfold triangulate. cbn [insertAll mbind option_bind app].
  rewrite purge_singleton, clean_self.
  change (vertices (CalcCircumCircle super)) with (vertices super).
  by destruct (existsb _ _).
Qed.

(** ** The circumcircle cache *)

Lemma CalcCircumCircle_Computed (t : Triangle) : Computed (CalcCircumCircle t).
Proof. reflexivity. Qed.

Lemma swapRemove_Forall {T : Type} (Q : T -> Prop) (i : nat) (l : list T) :
  Forall Q l -> Forall Q (swapRemove i l).
Proof.
  rewrite !Forall_forall. intros H x Hx. apply H. by eapply swapRemove_elem_of.
Qed.

Lemma scanStep_Computed (p : Point) (s s' : ScanState) :
  allComputed (sc_ts s, sc_result s) -> scanStep p s = Again s' ->
  allComputed (sc_ts s', sc_result s').
Proof.
  unfold allComputed, scanStep. simpl. intros [Hts Hres].
  destruct (sc_ts s !! sc_i s) as [t|] eqn:E; [|done].
  assert (Computed t) as Ht.
  { rewrite Forall_forall in Hts. apply Hts. by eapply list_elem_of_lookup_2. }
  destruct (_ <? _)%float; [|destruct (CircumcircleContains t p)];
    intros [= <-]; simpl; split; auto using swapRemove_Forall.
  apply Forall_app. auto.
Qed.

Lemma insertPoint_Computed (p : Point) (st st' : list Triangle * list Triangle) :
  allComputed st -> insertPoint p st = Some st' -> allComputed st'.
Proof.
  destruct st as [ts result]. unfold insertPoint. intros Hst H.
  apply bind_Some in H as (s & Hs & H). apply bind_Some in H as (edges & _ & H).
  injection H as <-.
  apply (loop_invariant _ (fun s => allComputed (sc_ts s, sc_result s))) in Hs
    as [[Hts Hres] _]; [|apply scanStep_Computed|done].
  split; simpl; [|done]. apply Forall_app. split; [done|].
  apply Forall_map. apply Forall_true. intros e. apply CalcCircumCircle_Computed.
Qed.

Lemma insertAll_Computed (pts : list Point) (st st' : list Triangle * list Triangle) :
  allComputed st -> insertAll pts st = Some st' -> allComputed st'.
Proof.
  revert st. induction pts as [|p pts IH]; simpl; intros st Hst H.
  - by injection H as <-.
  - apply bind_Some in H as (st1 & H1 & H). eauto using insertPoint_Computed.
Qed.



(** ** The defect of the edge deduplication *)

(** The loop of lines 103-111 removes the later copies [edges[i]] of
    [edges[j]]; [edges[j]] itself stays. *)
Lemma dedupEdges_pair (e e' : Edge) :
  dedupEdges [e; e'] = Some (if isEqual e e' then [e] else [e; e']).
Proof.
  unfold dedupEdges. simpl. unfold dedupOuterStep at 1. simpl.
  unfold dedupInnerStep at 1. simpl. by destruct (isEqual e e').
Qed.

(** The first collected edge survives whatever follows it: the inner loop
    only removes entries at indices above [j]. *)
Lemma dedupInner_keeps_head (e : Edge) (j fuel : nat) (s r : DedupState) :
  1 <= dd_i s -> dd_edges s !! 0 = Some e ->
  loop (dedupInnerStep j) fuel s = Some r -> dd_edges r !! 0 = Some e.
Proof.
  intros Hi He H.
  apply (loop_invariant _ (fun s => 1 <= dd_i s /\ dd_edges s !! 0 = Some e)) in H
    as [[_ H] _]; [done| |done].
  clear. intros s s' [Hi He]. unfold dedupInnerStep.
  destruct (dd_edges s !! j) as [ej|]; [|done].
  destruct (dd_edges s !! dd_i s) as [ei|] eqn:E; [|done].
  apply lookup_lt_Some in E.
  destruct (negb (isEqual ej ei)); intros [= <-]; simpl.
  - split; [lia|done].
  - split; [lia|]. by rewrite swapRemove_lookup_lt by lia.
Qed.

Lemma dedupEdges_keeps_head (e : Edge) (l : list Edge) :
  exists l', dedupEdges (e :: l) = Some (e :: l').
Proof.
  destruct (dedupEdges_total (e :: l)) as [r Hr]. rewrite Hr.
  unfold dedupEdges in Hr. apply fmap_Some in Hr as ([j r'] & Hr & ->). simpl.
  apply (loop_invariant _ (fun s => snd s !! 0 = Some e)) in Hr as [Hr _]; [| |done].
  - simpl in Hr. destruct r' as [|e' l']; [done|]. injection Hr as ->. by exists l'.
  - intros s s' He. unfold dedupOuterStep. case_decide; [|done].
    destruct (loop (dedupInnerStep _) _ _) as [r|] eqn:E; [|done].
    intros [= <-]. simpl.
    eapply dedupInner_keeps_head; [| |exact E]; simpl; [lia|done].
Qed.

(** C1 (defect).  A duplicated edge is not dropped entirely.  The first
    collected edge always survives the deduplication, however often it is
    repeated, and of two equal edges the first survives.  In the run on
    [kite], when the fourth point is inserted the edge from (1,2) to (1.25,0)
    is collected twice, from the two invalidated triangles that share it, and
    one copy survives the deduplication and forms a triangle with the new
    point. *)
Theorem dedupEdges_keeps_duplicate :
  (forall e l, exists l', dedupEdges (e :: l) = Some (e :: l'))
  /\ (forall e e', dedupEdges [e; e'] = Some (if isEqual e e' then [e] else [e; e']))
  /\ exists ts result s edges,
      insertAll (take 3 kite) ([CalcCircumCircle superT], []) = Some (ts, result)
      /\ loop (scanStep (mkPoint 1.5 1)) (length ts) (mkScan 0 ts result []) = Some s
      /\ occurrences (mkEdge (mkPoint 1 2) (mkPoint 1.25 0)) (sc_edges s) = 2
      /\ dedupEdges (sc_edges s) = Some edges
      /\ occurrences (mkEdge (mkPoint 1 2) (mkPoint 1.25 0)) edges = 1.
Proof.
  split; [apply dedupEdges_keeps_head|]. split; [apply dedupEdges_pair|].
  eexists. eexists. eexists. eexists.
  split; [vm_compute; reflexivity|].
  split; [vm_compute; reflexivity|].
  split; [vm_compute; reflexivity|].
  split; vm_compute; reflexivity.
Qed.

(** ** Valid inputs and the Delaunay property *)

(** C2 (defect).  [kite] is a valid input, and [DelaunayTriangulation]
    returns for it three triangles; the circumcircle of the third, with
    vertices (1,2), (1.25,0), (1.5,1), contains the input point (0,1), which
    is not one of its vertices.  That triangle is built on the duplicated
    edge that the deduplication keeps. *)
Theorem DelaunayTriangulation_not_Delaunay :
  validInput kite superT = true
  /\ DelaunayTriangulation kite superT = Some kiteResult
  /\ kiteResult !! 2
     = Some (CalcCircumCircle (newTriangle (mkPoint 1 2) (mkPoint 1.25 0) (mkPoint 1.5 1)))
  /\ HasVertex (CalcCircumCircle (newTriangle (mkPoint 1 2) (mkPoint 1.25 0) (mkPoint 1.5 1)))
       (mkPoint 0 1) = false
  /\ CircumcircleContains
       (CalcCircumCircle (newTriangle (mkPoint 1 2) (mkPoint 1.25 0) (mkPoint 1.5 1)))
       (mkPoint 0 1) = true
  /\ forallb (emptyCircumcircle kite) kiteResult = false.
Proof. repeat split; vm_compute; reflexivity. Qed.

(** ** Early finalization against the naive scan *)





Section ScanSpec.
Context (early : Triangle -> bool) (p : Point) (ts result : list Triangle).


End ScanSpec.

(** A list splits in only one way, up to order, into the elements that
    satisfy a test and those that do not. *)
Section Split.
Context {T : Type} (Q : T -> Prop) `{!forall x, Decision (Q x)}.

Lemma filter_all (l : list T) : Forall Q l -> filter Q l = l.
Proof.
  induction 1 as [|x l Hx _ IH]; [done|]. by rewrite filter_cons_True, IH.
Qed.

Lemma filter_none (l : list T) : Forall (fun x => ~ Q x) l -> filter Q l = [].
Proof.
  induction 1 as [|x l Hx _ IH]; [done|]. by rewrite filter_cons_False.
Qed.

End Split.

Section SplitUnique.
Context {T : Type} (Q : T -> Prop) `{!forall x, Decision (Q x)}.

End SplitUnique.



(** ** The caller's slice is left as it was *)

Lemma loop_sim {S1 S2 : Type} (R : S1 -> S2 -> Prop)
  (f : S1 -> Iter S1) (g : S2 -> Iter S2) :
  (forall s1 s2, R s1 s2 -> simIter R (f s1) (g s2)) ->
  forall fuel s1 s2, R s1 s2 -> simOption R (loop f fuel s1) (loop g fuel s2).
Proof.
  intros Hstep fuel. induction fuel as [|fuel IH]; intros s1 s2 HR; simpl;
    pose proof (Hstep _ _ HR) as Hs; unfold simIter in Hs;
    destruct (f s1), (g s2); simpl; try done; auto.
Qed.

Section SortAt.
Context (a : nat) (m0 : gmap nat (list Point)).

Lemma sift_sim (s : nat * gmap nat (list Point)) (t : nat * list Point) :
  holdsAt a m0 s t ->
  simIter (holdsAt a m0) (siftStep (pointsByXAt a) s) (siftStep pointsByX t).
Proof.
  destruct s as [j m], t as [j' l]. intros [Hj [Hl Hframe]]. simpl in *. subst j'.
  unfold siftStep. simpl. destruct j as [|j]; [done|]. rewrite Hl. simpl.
  destruct (pointsByX_Less l (S j) j); [|done]. simpl.
  split; [done|]. split; simpl.
  - by rewrite lookup_alter_eq, Hl.
  - intros b Hb. rewrite lookup_alter_ne by done. by apply Hframe.
Qed.

Lemma insertion_sim (n : nat) (s : nat * gmap nat (list Point)) (t : nat * list Point) :
  holdsAt a m0 s t ->
  simIter (holdsAt a m0) (insertionStep (pointsByXAt a) n s) (insertionStep pointsByX n t).
Proof.
  intros Hst. pose proof Hst as [Hi Hh]. unfold insertionStep. rewrite <- Hi.
  case_decide; [|done].
  pose proof (loop_sim (holdsAt a m0) _ _ sift_sim (fst s) (fst s, snd s) (fst s, snd t)) as Hsim.
  unfold simOption in Hsim.
  destruct (loop (siftStep (pointsByXAt a)) _ _) as [r1|],
    (loop (siftStep pointsByX) _ _) as [r2|]; simpl.
  - split; [done|]. apply Hsim. by split.
  - apply Hsim. by split.
  - apply Hsim. by split.
  - done.
Qed.

Lemma sort_Sort_at (m : gmap nat (list Point)) (l : list Point) :
  holds a m0 m l ->
  simOption (holds a m0) (sort_Sort (pointsByXAt a) m) (sort_Sort pointsByX l).
Proof.
  intros Hh. pose proof Hh as [Hl _]. unfold sort_Sort. simpl. rewrite Hl. simpl.
  pose proof (loop_sim (holdsAt a m0) _ _ (insertion_sim (pointsByX_Len l))
                (pointsByX_Len l) (1, m) (1, l)) as Hsim.
  unfold simOption in *.
  destruct (loop (insertionStep (pointsByXAt a) _) _ _) as [r1|],
    (loop (insertionStep pointsByX _) _ _) as [r2|]; simpl.
  - apply Hsim. by split.
  - apply Hsim. by split.
  - apply Hsim. by split.
  - done.
Qed.
End SortAt.

(** C10.  [DelaunayTriangulation] does not modify its [points] argument: with
    the caller's slice at address [points] holding [src], the call returns
    what [DelaunayTriangulation] computes from [src], and in the memory it
    leaves the caller's slice still holds [src], the same elements in the
    same order, as does every array that existed before the call; the sorted
    points are in a private copy, at an address that was unused before. *)
Theorem DelaunayTriangulation_preserves_points
  (m : gmap nat (list Point)) (points : nat) (src : list Point) (super : Triangle) :
  m !! points = Some src ->
  exists r m' pts sorted,
    DelaunayTriangulationAt m points super = Some (r, m')
    /\ DelaunayTriangulation src super = Some r
    /\ m' !! points = Some src
    /\ (forall a, a ∈ dom m -> m' !! a = m !! a)
    /\ (pts ∉ dom m)
    /\ sort_Sort pointsByX src = Some sorted
    /\ m' !! pts = Some sorted.
Proof.
  intros Hsrc. unfold DelaunayTriangulationAt, make. rewrite Hsrc. simpl.
  set (pts := fresh (dom m)).
  assert (pts ∉ dom m) as Hfresh by apply is_fresh.
  assert (points <> pts) as Hne.
  { intros ->. apply Hfresh. by eapply elem_of_dom_2. }
  set (m1 := <[pts := replicate (length src) (mkPoint 0 0)]> m).
  assert (copy pts points m1 = <[pts := src]> m1) as ->.
  { unfold copy, m1. rewrite lookup_insert_eq, lookup_insert_ne, Hsrc by done.
    rewrite length_replicate, take_ge, drop_ge, app_nil_r;
      [done | by rewrite length_replicate | done]. }
  assert (holds pts (<[pts := src]> m1) (<[pts := src]> m1) src) as Hh.
  { split; [by rewrite lookup_insert_eq|done]. }
  apply sort_Sort_at in Hh. unfold simOption in Hh.
  destruct (sort_Sort_total pointsByX src) as [sorted Hsorted].
  rewrite Hsorted in Hh.
  destruct (sort_Sort (pointsByXAt pts) _) as [m3|]; [|done].
  destruct Hh as [Hpts Hframe]. simpl. rewrite Hpts. simpl.
  destruct (triangulate_total sorted super) as [r Hr]. rewrite Hr. simpl.
  exists r, m3, pts, sorted. split; [done|].
  unfold DelaunayTriangulation. rewrite Hsorted. simpl. split; [done|].
  assert (forall a, a ∈ dom m -> m3 !! a = m !! a) as Hm.
  { intros a Ha. assert (a <> pts) as Hapts by (intros ->; done).
    rewrite Hframe by done. unfold m1. by rewrite !lookup_insert_ne. }
  split; [|done]. rewrite Hm; [done|]. by eapply elem_of_dom_2.
Qed.

Lemma DelaunayTriangulation_preserves_points_witness :
  exists r m' pts sorted,
    DelaunayTriangulationAt
      {[ 7 := [mkPoint 1.5 1; mkPoint 1.25 0; mkPoint 1 2; mkPoint 0 1] ]} 7 superT
    = Some (r, m')
    /\ DelaunayTriangulation [mkPoint 1.5 1; mkPoint 1.25 0; mkPoint 1 2; mkPoint 0 1] superT
       = Some r
    /\ m' !! 7 = Some [mkPoint 1.5 1; mkPoint 1.25 0; mkPoint 1 2; mkPoint 0 1]
    /\ (forall a,
         a ∈ dom ({[ 7 := [mkPoint 1.5 1; mkPoint 1.25 0; mkPoint 1 2; mkPoint 0 1] ]}
                    : gmap nat (list Point)) ->
         m' !! a
         = ({[ 7 := [mkPoint 1.5 1; mkPoint 1.25 0; mkPoint 1 2; mkPoint 0 1] ]}
              : gmap nat (list Point)) !! a)
    /\ (pts ∉ dom ({[ 7 := [mkPoint 1.5 1; mkPoint 1.25 0; mkPoint 1 2; mkPoint 0 1] ]}
                     : gmap nat (list Point)))
    /\ sort_Sort pointsByX [mkPoint 1.5 1; mkPoint 1.25 0; mkPoint 1 2; mkPoint 0 1]
       = Some sorted
    /\ m' !! pts = Some sorted.
Proof.
  apply (DelaunayTriangulation_preserves_points
           {[ 7 := [mkPoint 1.5 1; mkPoint 1.25 0; mkPoint 1 2; mkPoint 0 1] ]} 7
           [mkPoint 1.5 1; mkPoint 1.25 0; mkPoint 1 2; mkPoint 0 1] superT).
  vm_compute. reflexivity.
Defined.

(** * Further properties of the code *)

(** ** Floating point: order and NaN *)
Section FloatOrder.
Local Open Scope float_scope.

Lemma is_nan_spec x : is_nan x = true <-> Prim2SF x = S754_nan.
Proof.
  unfold is_nan. rewrite negb_true_iff, FloatAxioms.eqb_spec. unfold SFeqb.
  destruct (SFcompare_refl (Prim2SF x)) as [E|E]; rewrite E.
  - split; [done|]. intros Hn. rewrite Hn in E. done.
  - split; [|done]. intros _. by destruct (Prim2SF x) as [?|?| |[] ? ?].
Qed.

Lemma float_ltb_nan_r x y : is_nan y = true -> (x <? y) = false.
Proof.
  rewrite is_nan_spec, FloatAxioms.ltb_spec. intros ->. unfold SFltb.
  by destruct (Prim2SF x).
Qed.

Lemma float_ltb_nan_l x y : is_nan x = true -> (x <? y) = false.
Proof. rewrite is_nan_spec, FloatAxioms.ltb_spec. by intros ->. Qed.

Lemma float_leb_nan_l x y : is_nan x = true -> (x <=? y) = false.
Proof. rewrite is_nan_spec, FloatAxioms.leb_spec. by intros ->. Qed.

Lemma float_leb_nan_r x y : is_nan y = true -> (x <=? y) = false.
Proof.
  rewrite is_nan_spec, FloatAxioms.leb_spec. intros ->. unfold SFleb.
  by destruct (Prim2SF x).
Qed.

Lemma float_sub_nan_l x y : is_nan x = true -> is_nan (x - y) = true.
Proof. rewrite !is_nan_spec, FloatAxioms.sub_spec. by intros ->. Qed.

Lemma float_add_nan_l x y : is_nan x = true -> is_nan (x + y) = true.
Proof. rewrite !is_nan_spec, FloatAxioms.add_spec. by intros ->. Qed.

Lemma float_add_nan_r x y : is_nan y = true -> is_nan (x + y) = true.
Proof.
  rewrite !is_nan_spec, FloatAxioms.add_spec. intros ->. by destruct (Prim2SF x).
Qed.

Lemma float_mul_nan x : is_nan x = true -> is_nan (x * x) = true.
Proof. rewrite !is_nan_spec, FloatAxioms.mul_spec. by intros ->. Qed.

Lemma float_sqrt_nan x : is_nan x = true -> is_nan (PrimFloat.sqrt x) = true.
Proof. rewrite !is_nan_spec, FloatAxioms.sqrt_spec. by intros ->. Qed.

Lemma SFcompare_Lt_trans a b c :
  SFcompare a b = Some Lt -> SFcompare b c = Some Lt -> SFcompare a c = Some Lt.
Proof.
  destruct a as [sa|sa| |sa ma ea], b as [sb|sb| |sb mb eb], c as [sc|sc| |sc mc ec];
    simpl; try done;
    try (by destruct sa); try (by destruct sb); try (by destruct sc);
    try (by destruct sa, sb); try (by destruct sb, sc); try (by destruct sa, sc);
    try (by destruct sa, sb, sc).
  change (Pos.compare_cont Eq ma mb) with (Pos.compare ma mb).
  change (Pos.compare_cont Eq mb mc) with (Pos.compare mb mc).
  change (Pos.compare_cont Eq ma mc) with (Pos.compare ma mc).
  destruct sa, sb, sc; try done;
    destruct (Z.compare_spec ea eb), (Z.compare_spec eb ec), (Z.compare_spec ea ec);
    try done; try lia;
    destruct (Pos.compare_spec ma mb), (Pos.compare_spec mb mc), (Pos.compare_spec ma mc);
    simpl; try done; try lia.
Qed.

Lemma float_ltb_trans x y z : (x <? y) = true -> (y <? z) = true -> (x <? z) = true.
Proof.
  rewrite !FloatAxioms.ltb_spec. unfold SFltb.
  destruct (SFcompare (Prim2SF x) (Prim2SF y)) as [[]|] eqn:E1; try done.
  destruct (SFcompare (Prim2SF y) (Prim2SF z)) as [[]|] eqn:E2; try done.
  by rewrite (SFcompare_Lt_trans _ _ _ E1 E2).
Qed.
End FloatOrder.

(** ** Removal by swap-with-last, in full *)

Lemma swapRemove_lookup_other {T : Type} (i k : nat) (l : list T) :
  i < length l -> k <> i -> k < length l - 1 -> swapRemove i l !! k = l !! k.
Proof.
  intros Hi Hk Hlt. destruct (lookup_lt_is_Some_2 l i Hi) as [t Ht].
  destruct (lookup_snoc_inv _ _ _ Ht) as (l' & x & -> & Hle).
  rewrite length_app in Hlt. simpl in Hlt.
  rewrite swapRemove_snoc, lookup_app_l by lia.
  case_decide; [by rewrite list_lookup_insert_ne|done].
Qed.

Lemma swapRemove_lookup_at {T : Type} (i : nat) (l : list T) :
  i < length l - 1 -> swapRemove i l !! i = l !! (length l - 1).
Proof.
  intros Hi. assert (i < length l) as Hi' by lia.
  destruct (lookup_lt_is_Some_2 l i Hi') as [t Ht].
  destruct (lookup_snoc_inv _ _ _ Ht) as (l' & x & -> & Hle).
  rewrite length_app in *. simpl in *.
  replace (length l' + 1 - 1) with (length l') in * by lia.
  rewrite swapRemove_snoc, list_lookup_middle by done.
  rewrite decide_True by done. by rewrite list_lookup_insert_eq.
Qed.

(** X1.  [n := len(l)-1; l[i] = l[n]; l = l[:n]] with [i] in range removes
    exactly the element at [i]: the list is one shorter and holds the other
    elements (it is the old list without [l[i]], up to order); the entries
    other than [i] keep their index, and index [i], when it is not the last,
    receives the last element. *)
Theorem swapRemove_spec {T : Type} (i : nat) (l : list T) (t : T) :
  l !! i = Some t ->
  l ≡ₚ t :: swapRemove i l
  /\ length (swapRemove i l) = length l - 1
  /\ (forall k, k <> i -> k < length l - 1 -> swapRemove i l !! k = l !! k)
  /\ (i < length l - 1 -> swapRemove i l !! i = l !! (length l - 1)).
Proof.
  intros Ht. pose proof (lookup_lt_Some _ _ _ Ht) as Hi.
  split; [by apply swapRemove_Permutation|].
  split; [apply swapRemove_length|].
  split; [intros k; by apply swapRemove_lookup_other|apply swapRemove_lookup_at].
Qed.

Lemma swapRemove_spec_witness :
  [10; 20; 30; 40] !! 1 = Some 20
  /\ swapRemove 1 [10; 20; 30; 40] = [10; 40; 30]
  /\ [10; 20; 30; 40] ≡ₚ 20 :: swapRemove 1 [10; 20; 30; 40].
Proof.
  split; [reflexivity|]. split; [reflexivity|].
  apply (swapRemove_spec 1 [10; 20; 30; 40] 20). reflexivity.
Defined.

(** ** [pointsByX] *)

(** X2.  [Swap(i, j)] with both indices in range exchanges the elements at
    [i] and [j] and nothing else: the slice keeps its length and its
    elements, and a second [Swap(i, j)] restores it. *)
Theorem pointsByX_Swap_spec (s : list Point) (i j : nat) (p q : Point) :
  s !! i = Some p -> s !! j = Some q ->
  pointsByX_Swap s i j !! i = Some q
  /\ pointsByX_Swap s i j !! j = Some p
  /\ (forall k, k <> i -> k <> j -> pointsByX_Swap s i j !! k = s !! k)
  /\ pointsByX_Len (pointsByX_Swap s i j) = pointsByX_Len s
  /\ pointsByX_Swap s i j ≡ₚ s
  /\ pointsByX_Swap (pointsByX_Swap s i j) i j = s.
Proof.
  intros Hp Hq. unfold pointsByX_Swap, pointsByX_Len. rewrite Hp, Hq.
  pose proof (lookup_lt_Some _ _ _ Hp) as Hi.
  pose proof (lookup_lt_Some _ _ _ Hq) as Hj.
  assert (<[j:=p]> (<[i:=q]> s) !! i = Some q) as Ei.
  { destruct (decide (i = j)) as [->|].
    - rewrite list_lookup_insert_eq by (by rewrite length_insert). congruence.
    - rewrite list_lookup_insert_ne by done. by rewrite list_lookup_insert_eq. }
  assert (<[j:=p]> (<[i:=q]> s) !! j = Some p) as Ej.
  { by rewrite list_lookup_insert_eq by (by rewrite length_insert). }
  split; [done|]. split; [done|].
  split; [intros k ? ?; by rewrite !list_lookup_insert_ne|].
  split; [by rewrite !length_insert|].
  split; [by apply Permutation_insert_swap|].
  rewrite Ei, Ej. apply list_eq. intros k.
  destruct (decide (k = j)) as [->|Hkj].
  - rewrite list_lookup_insert_eq by (by rewrite !length_insert). done.
  - rewrite list_lookup_insert_ne by done.
    destruct (decide (k = i)) as [->|Hki].
    + rewrite list_lookup_insert_eq by (by rewrite !length_insert). done.
    + by rewrite !list_lookup_insert_ne.
Qed.

Lemma pointsByX_Swap_spec_witness :
  pointsByX_Swap [mkPoint 3 0; mkPoint 1 0; mkPoint 2 0] 0 2
  = [mkPoint 2 0; mkPoint 1 0; mkPoint 3 0]
  /\ pointsByX_Swap [mkPoint 3 0; mkPoint 1 0; mkPoint 2 0] 0 2
     ≡ₚ [mkPoint 3 0; mkPoint 1 0; mkPoint 2 0].
Proof.
  split; [reflexivity|].
  apply (pointsByX_Swap_spec [mkPoint 3 0; mkPoint 1 0; mkPoint 2 0] 0 2
           (mkPoint 3 0) (mkPoint 2 0)); reflexivity.
Defined.

Lemma pointsByX_Less_irrefl (s : list Point) (i : nat) : pointsByX_Less s i i = false.
Proof.
  unfold pointsByX_Less. destruct (s !! i); [|done]. apply float_ltb_irrefl.
Qed.

(** X3.  [Less] is a strict order on the indices of a slice: it is
    transitive, asymmetric and irreflexive, NaN coordinates included (an
    index whose [X] is NaN is below and above nothing). *)
Theorem pointsByX_Less_order (s : list Point) (i j k : nat) :
  pointsByX_Less s i j = true -> pointsByX_Less s j k = true ->
  pointsByX_Less s i k = true
  /\ pointsByX_Less s j i = false
  /\ pointsByX_Less s i i = false.
Proof.
  unfold pointsByX_Less.
  destruct (s !! i) as [p|], (s !! j) as [q|], (s !! k) as [r|]; try done.
  intros H1 H2. split; [by eapply float_ltb_trans|].
  split; [|apply float_ltb_irrefl].
  destruct (X q <? X p)%float eqn:E; [|done].
  pose proof (float_ltb_trans _ _ _ H1 E) as Hc.
  by rewrite float_ltb_irrefl in Hc.
Qed.

Lemma pointsByX_Less_order_witness :
  pointsByX_Less [mkPoint 1 0; mkPoint 2 0; mkPoint 3 0] 0 2 = true
  /\ pointsByX_Less [mkPoint 1 0; mkPoint 2 0; mkPoint 3 0] 1 0 = false
  /\ pointsByX_Less [mkPoint 1 0; mkPoint 2 0; mkPoint 3 0] 0 0 = false.
Proof.
  apply (pointsByX_Less_order [mkPoint 1 0; mkPoint 2 0; mkPoint 3 0] 0 1 2);
    reflexivity.
Defined.

(** ** Edges and vertices under [==] *)

Lemma isEqual_trans (e1 e2 e3 : Edge) :
  isEqual e1 e2 = true -> isEqual e2 e3 = true -> isEqual e1 e3 = true.
Proof.
  unfold isEqual. rewrite !orb_true_iff, !andb_true_iff.
  intros [[H1 H2]|[H1 H2]] [[H3 H4]|[H3 H4]];
    [left|right|right|left]; split; eapply Point_eqb_trans; eauto.
Qed.

Lemma isEqual_refl_l (e1 e2 : Edge) : isEqual e1 e2 = true -> isEqual e1 e1 = true.
Proof.
  intros H. eapply isEqual_trans; [exact H|]. by rewrite isEqual_sym.
Qed.

(** X4.  [isEqual] is transitive, and an edge that is equal to some edge is
    equal to itself: with the symmetry of [isEqual] it is an equivalence
    relation on the edges without NaN coordinates. *)
Theorem isEqual_equivalence (e1 e2 e3 : Edge) :
  isEqual e1 e2 = true -> isEqual e2 e3 = true ->
  isEqual e1 e3 = true /\ isEqual e1 e1 = true /\ isEqual e3 e1 = true.
Proof.
  intros H1 H2. pose proof (isEqual_trans _ _ _ H1 H2) as H3.
  split; [done|]. split; [by eapply isEqual_refl_l|]. by rewrite isEqual_sym.
Qed.

Lemma isEqual_equivalence_witness :
  isEqual (mkEdge (mkPoint 0 0) (mkPoint 1 2)) (mkEdge (mkPoint 1 2) (mkPoint 0 0)) = true
  /\ isEqual (mkEdge (mkPoint 0 0) (mkPoint 1 2)) (mkEdge (mkPoint (-0) 0) (mkPoint 1 2)) = true.
Proof.
  split; [reflexivity|].
  apply (isEqual_equivalence (mkEdge (mkPoint 0 0) (mkPoint 1 2))
           (mkEdge (mkPoint 1 2) (mkPoint 0 0))
           (mkEdge (mkPoint (-0) 0) (mkPoint 1 2))); reflexivity.
Defined.

Lemma Point_eqb_congr_r (v p q : Point) :
  Point_eqb p q = true -> Point_eqb v p = Point_eqb v q.
Proof.
  intros H. apply Bool.eq_iff_eq_true. split; intros Hv.
  - by eapply Point_eqb_trans.
  - eapply Point_eqb_trans; [exact Hv|]. by rewrite Point_eqb_sym.
Qed.

Lemma HasVertex_self (t : Triangle) (p : Point) :
  HasVertex t p = true -> Point_eqb p p = true.
Proof.
  unfold HasVertex. rewrite !orb_true_iff.
  intros [[H|H]|H]; by eapply Point_eqb_refl_r.
Qed.

(** X5.  [HasVertex] does not tell apart two points that are [==], such as
    [(0,0)] and [(-0,0)]. *)
Theorem HasVertex_eq (t : Triangle) (p q : Point) :
  Point_eqb p q = true -> HasVertex t p = HasVertex t q.
Proof.
  intros H. unfold HasVertex. by rewrite !(Point_eqb_congr_r _ p q H).
Qed.

Lemma HasVertex_eq_witness :
  Point_eqb (mkPoint (-0) 50) (mkPoint 0 50) = true
  /\ HasVertex superT (mkPoint (-0) 50) = HasVertex superT (mkPoint 0 50).
Proof.
  split; [reflexivity|].
  apply (HasVertex_eq superT (mkPoint (-0) 50) (mkPoint 0 50)). reflexivity.
Defined.

(** ** The scan of the active set, in full *)

Lemma scanSplit_step (p : Point) (ts result : list Triangle) (s s' : ScanState) :
  (exists fin inv, scanSplit p ts result s fin inv
     /\ forall k t, k < sc_i s -> sc_ts s !! k = Some t -> untouched p t) ->
  scanStep p s = Again s' ->
  exists fin inv, scanSplit p ts result s' fin inv
     /\ forall k t, k < sc_i s' -> sc_ts s' !! k = Some t -> untouched p t.
Proof.
  intros (fin & inv & (Hres & Hedges & Hperm & Hfin & Hinv) & Hpre).
  unfold scanStep. destruct (sc_ts s !! sc_i s) as [t|] eqn:E; [|done].
  pose proof (swapRemove_Permutation _ _ _ E) as Hsr.
  pose proof (lookup_lt_Some _ _ _ E) as Hlt.
  assert (forall k u, k < sc_i s -> swapRemove (sc_i s) (sc_ts s) !! k = Some u ->
            untouched p u) as Hpre'.
  { intros k u Hk Hu. rewrite swapRemove_lookup_lt in Hu by done. by eapply Hpre. }
  set (sr := swapRemove (sc_i s) (sc_ts s)) in *.
  fold (passed p t).
  destruct (passed p t) eqn:Ee; [|destruct (CircumcircleContains t p) eqn:Ec];
    intros [= <-]; unfold scanSplit; simpl.
  - exists (fin ++ [t]), inv. split; [|exact Hpre'].
    split; [by rewrite Hres, app_assoc|]. split; [done|]. split.
    { rewrite Hperm, Hsr. simpl. rewrite <- !app_assoc. simpl.
      rewrite !(app_assoc sr fin). apply Permutation_middle. }
    split; [apply Forall_app; auto|done].
  - exists fin, (inv ++ [t]). split; [|exact Hpre'].
    split; [done|]. split.
    { rewrite bind_app, Hedges. simpl. by rewrite ?app_nil_r. }
    split.
    { rewrite Hperm, Hsr. simpl. rewrite !app_assoc.
      by rewrite <- Permutation_cons_append. }
    split; [done|]. apply Forall_app; auto.
  - exists fin, inv. split; [done|]. intros k u Hk Hu.
    destruct (decide (k = sc_i s)) as [->|]; [|eapply Hpre; [|done]; lia].
    assert (u = t) as -> by congruence. done.
Qed.

Lemma scan_split (p : Point) (ts result : list Triangle) (fuel : nat) (s : ScanState) :
  loop (scanStep p) fuel (mkScan 0 ts result []) = Some s ->
  exists fin inv, scanSplit p ts result s fin inv /\ Forall (untouched p) (sc_ts s).
Proof.
  intros H.
  apply (loop_invariant _ (fun s => exists fin inv, scanSplit p ts result s fin inv
     /\ forall k t, k < sc_i s -> sc_ts s !! k = Some t -> untouched p t)) in H
    as [(fin & inv & Hsplit & Hpre) Hdone].
  - exists fin, inv. split; [done|]. apply Forall_lookup. intros k t Hk.
    apply (Hpre k); [|done]. unfold scanStep in Hdone.
    destruct (sc_ts s !! sc_i s) eqn:E.
    + by repeat case_match.
    + apply lookup_ge_None_1 in E. apply lookup_lt_Some in Hk. lia.
  - apply scanSplit_step.
  - exists [], []. split; [|intros k t Hk; simpl in Hk; lia].
    unfold scanSplit. simpl. rewrite !app_nil_r. do 3 (split; [done|]).
    split; constructor.
Qed.

(** X7.  The scan of the active set [ts] for a point [p] sorts every triangle
    into exactly one of three groups, losing and duplicating none: those that
    pass the early-finalization test are appended to the result; those that
    do not pass it and contain [p] are removed and leave their three edges,
    and nothing else, in the edge list; those that do neither stay in the
    active set. *)
Theorem scan_partition (p : Point) (ts result : list Triangle) :
  exists s fin inv,
    loop (scanStep p) (length ts) (mkScan 0 ts result []) = Some s
    /\ sc_result s = result ++ fin
    /\ sc_edges s = inv ≫= edgesOf
    /\ ts ≡ₚ sc_ts s ++ fin ++ inv
    /\ Forall (fun t => passed p t = true) fin
    /\ Forall (fun t => passed p t = false /\ CircumcircleContains t p = true) inv
    /\ Forall (fun t => passed p t = false /\ CircumcircleContains t p = false) (sc_ts s).
Proof.
  destruct (scan_total p ts result []) as [s Hs].
  destruct (scan_split _ _ _ _ _ Hs) as (fin & inv & (? & ? & ? & ? & ?) & ?).
  by exists s, fin, inv.
Qed.

(** One insertion, decomposed. *)
Lemma insertPoint_inv (p : Point) (ts result ts' result' : list Triangle) :
  insertPoint p (ts, result) = Some (ts', result') ->
  exists kept fin inv edges,
    ts ≡ₚ kept ++ fin ++ inv
    /\ Forall (untouched p) kept
    /\ Forall (fun t => passed p t = true) fin
    /\ Forall (fun t => passed p t = false /\ CircumcircleContains t p = true) inv
    /\ dedupEdges (inv ≫= edgesOf) = Some edges
    /\ ts' = kept ++ map (formed p) edges
    /\ result' = result ++ fin.
Proof.
  unfold insertPoint. intros H.
  apply bind_Some in H as (s & Hs & H). apply bind_Some in H as (edges & He & H).
  injection H as <- <-.
  destruct (scan_split _ _ _ _ _ Hs) as (fin & inv & (Hres & Hedges & Hperm & ? & ?) & ?).
  exists (sc_ts s), fin, inv, edges. rewrite <- Hedges. done.
Qed.

(** ** The edge deduplication, in full *)

Lemma swapRemove_submseteq {T : Type} (i : nat) (l : list T) :
  swapRemove i l ⊆+ l.
Proof.
  destruct (l !! i) as [t|] eqn:E.
  - rewrite (swapRemove_Permutation _ _ _ E) at 2. by apply submseteq_cons.
  - unfold swapRemove. destruct (l !! (length l - 1)) as [x|] eqn:El; [|done].
    apply lookup_ge_None_1 in E. rewrite list_insert_ge by done.
    apply submseteq_take.
Qed.

(** Where an entry of the shortened list comes from. *)
Lemma swapRemove_lookup_from {T : Type} (i k : nat) (l : list T) (x : T) :
  i < length l -> swapRemove i l !! k = Some x ->
  exists k', k <= k' /\ l !! k' = Some x.
Proof.
  intros Hi Hx. pose proof (lookup_lt_Some _ _ _ Hx) as Hk.
  rewrite swapRemove_length in Hk.
  destruct (decide (k = i)) as [->|Hne].
  - rewrite swapRemove_lookup_at in Hx by done. exists (length l - 1). split; [lia|done].
  - rewrite swapRemove_lookup_other in Hx by done. by exists k.
Qed.

Lemma dedupInner_step (j : nat) (l : list Edge) (ej : Edge) (s s' : DedupState) :
  l !! j = Some ej -> dedupInnerInv j l ej s -> dedupInnerStep j s = Again s' ->
  dedupInnerInv j l ej s'.
Proof.
  intros Hj (Hi & Hlow & Hsub & Hne & Hcov & Hfrom). unfold dedupInnerStep.
  rewrite (Hlow j), Hj by done.
  destruct (dd_edges s !! dd_i s) as [ei|] eqn:E; [|done].
  pose proof (lookup_lt_Some _ _ _ E) as Hlt.
  destruct (isEqual ej ei) eqn:Eq; simpl; intros [= <-]; unfold dedupInnerInv; simpl.
  - split; [done|]. split.
    { intros k Hk. rewrite swapRemove_lookup_lt by lia. by apply Hlow. }
    split; [by rewrite swapRemove_submseteq|]. split.
    { intros b eb Hb1 Hb2 Hb. rewrite swapRemove_lookup_lt in Hb by lia. by eapply Hne. }
    split.
    { intros e He. destruct (Hcov e He) as [Hin|Hin]; [|by right].
      rewrite (swapRemove_Permutation _ _ _ E) in Hin.
      apply elem_of_cons in Hin as [->|Hin]; [by right|by left]. }
    intros b x Hb. apply swapRemove_lookup_from in Hb as (b1 & Hb1 & Hx); [|done].
    destruct (Hfrom _ _ Hx) as (b2 & Hb2 & Hx2). exists b2. split; [lia|done].
  - split; [lia|]. do 2 (split; [done|]). split; [|done].
    intros b eb Hb1 Hb2 Hb. destruct (decide (b = dd_i s)) as [->|].
    + congruence.
    + eapply Hne; [done| |done]. lia.
Qed.

Lemma dedupInner_spec (j : nat) (l : list Edge) (ej : Edge) (fuel : nat) (r : DedupState) :
  l !! j = Some ej ->
  loop (dedupInnerStep j) fuel (mkDedup (S j) l) = Some r ->
  (forall k, k <= j -> dd_edges r !! k = l !! k)
  /\ dd_edges r ⊆+ l
  /\ (forall b eb, j < b -> dd_edges r !! b = Some eb -> isEqual ej eb = false)
  /\ (forall e, e ∈ l -> e ∈ dd_edges r \/ isEqual ej e = true)
  /\ (forall b x, dd_edges r !! b = Some x -> exists b', b <= b' /\ l !! b' = Some x).
Proof.
  intros Hj H. apply (loop_invariant _ (dedupInnerInv j l ej)) in H
    as [(Hi & Hlow & Hsub & Hne & Hcov & Hfrom) Hdone].
  - do 2 (split; [done|]). split; [|done].
    intros b eb Hb1 Hb. eapply Hne; [done| |done].
    unfold dedupInnerStep in Hdone. rewrite (Hlow j), Hj in Hdone by done.
    destruct (dd_edges r !! dd_i r) as [ei|] eqn:E; [by destruct (negb _)|].
    apply lookup_ge_None_1 in E. apply lookup_lt_Some in Hb. lia.
  - intros s s'. by apply dedupInner_step.
  - unfold dedupInnerInv. simpl. split; [lia|]. do 2 (split; [done|]).
    split; [intros; lia|]. split; [by left|]. intros b x Hb. by exists b.
Qed.

Lemma dedupOuter_step (l : list Edge) (s s' : nat * list Edge) :
  (snd s ⊆+ l
   /\ (forall a b ea eb, a < fst s -> a < b -> snd s !! a = Some ea ->
         snd s !! b = Some eb -> isEqual ea eb = false)
   /\ (forall e, e ∈ l -> exists e', e' ∈ snd s /\ (e' = e \/ isEqual e' e = true))) ->
  dedupOuterStep s = Again s' ->
  snd s' ⊆+ l
  /\ (forall a b ea eb, a < fst s' -> a < b -> snd s' !! a = Some ea ->
        snd s' !! b = Some eb -> isEqual ea eb = false)
  /\ (forall e, e ∈ l -> exists e', e' ∈ snd s' /\ (e' = e \/ isEqual e' e = true)).
Proof.
  destruct s as [j edges]. simpl. intros (Hsub & Hdist & Hcov).
  unfold dedupOuterStep. simpl. case_decide as Hj; [|done].
  destruct (lookup_lt_is_Some_2 edges j Hj) as [ej Hej].
  destruct (loop (dedupInnerStep j) _ _) as [r|] eqn:E; [|done].
  intros [= <-]. simpl.
  destruct (dedupInner_spec j edges ej _ r Hej E) as (Hlow & Hsub' & Hne & Hcov' & Hfrom).
  split; [by etrans|]. split.
  - intros a b ea eb Ha Hab Hea Heb.
    rewrite Hlow in Hea by lia.
    destruct (decide (a = j)) as [->|].
    + assert (ea = ej) as -> by congruence. by apply (Hne b eb).
    + destruct (Hfrom _ _ Heb) as (b' & Hb' & Heb').
      eapply (Hdist a b'); [lia|lia|done|done].
  - intros e He. destruct (Hcov e He) as (e' & He' & Hrel).
    assert (ej ∈ dd_edges r) as Hejr.
    { eapply list_elem_of_lookup_2. by rewrite (Hlow j). }
    destruct (Hcov' e' He') as [Hin|Heq]; [by exists e'|].
    exists ej. split; [done|]. right.
    destruct Hrel as [->|Hrel]; [done|]. by eapply isEqual_trans.
Qed.

Lemma dedupEdges_post (l r : list Edge) :
  dedupEdges l = Some r ->
  r ⊆+ l
  /\ pairwiseDistinct r
  /\ (forall e, e ∈ l -> exists e', e' ∈ r /\ (e' = e \/ isEqual e' e = true)).
Proof.
  intros Hr.
  unfold dedupEdges in Hr. apply fmap_Some in Hr as ([j r'] & Hr & ->). simpl.
  apply (loop_invariant _ (fun s =>
    snd s ⊆+ l
    /\ (forall a b ea eb, a < fst s -> a < b -> snd s !! a = Some ea ->
          snd s !! b = Some eb -> isEqual ea eb = false)
    /\ (forall e, e ∈ l -> exists e', e' ∈ snd s /\ (e' = e \/ isEqual e' e = true))))
    in Hr as [(Hsub & Hdist & Hcov) Hdone].
  - simpl in *. split; [done|]. split; [|done].
    intros a b ea eb Hab Hea Heb. eapply (Hdist a b); [|done..].
    unfold dedupOuterStep in Hdone. simpl in Hdone.
    case_decide as Hj.
    + by destruct (loop _ _ _).
    + apply lookup_lt_Some in Hea. lia.
  - intros s s'. apply dedupOuter_step.
  - simpl. split; [done|]. split; [intros; lia|].
    intros e He. exists e. split; [done|by left].
Qed.

(** X8.  What the deduplication leaves: a selection of the collected edges
    (none invented, none more often than it was collected) in which no two
    entries are equal, and in which every collected edge is still present or
    has an equal entry.  The loop makes the list duplicate-free; it does not
    drop the edges that occurred twice. *)
Theorem dedupEdges_spec (l : list Edge) :
  exists r,
    dedupEdges l = Some r
    /\ r ⊆+ l
    /\ pairwiseDistinct r
    /\ (forall e, e ∈ l -> exists e', e' ∈ r /\ (e' = e \/ isEqual e' e = true)).
Proof.
  destruct (dedupEdges_total l) as [r Hr]. exists r. split; [done|].
  by apply dedupEdges_post.
Qed.

(** On a list without equal entries the inner loop removes nothing. *)
Lemma dedupInner_id (j : nat) (l : list Edge) (ej : Edge) (fuel : nat) (r : DedupState) :
  l !! j = Some ej ->
  (forall b eb, j < b -> l !! b = Some eb -> isEqual ej eb = false) ->
  loop (dedupInnerStep j) fuel (mkDedup (S j) l) = Some r -> dd_edges r = l.
Proof.
  intros Hj Hne H.
  apply (loop_invariant _ (fun s => j < dd_i s /\ dd_edges s = l)) in H
    as [[_ H] _]; [done| |simpl; split; [lia|done]].
  intros s s' [Hi He]. unfold dedupInnerStep. rewrite He, Hj.
  destruct (l !! dd_i s) as [ei|] eqn:E; [|done].
  rewrite (Hne _ _ Hi E). simpl. intros [= <-]. simpl. split; [lia|done].
Qed.

Lemma dedupEdges_distinct_id (l : list Edge) :
  pairwiseDistinct l -> dedupEdges l = Some l.
Proof.
  intros Hd. destruct (dedupEdges_total l) as [r Hr]. rewrite Hr. f_equal.
  unfold dedupEdges in Hr. apply fmap_Some in Hr as ([j r'] & Hr & ->). simpl.
  apply (loop_invariant _ (fun s => snd s = l)) in Hr as [Hr _]; [done| |done].
  intros [k edges] s'. simpl. intros ->. unfold dedupOuterStep. simpl.
  case_decide as Hk; [|done].
  destruct (lookup_lt_is_Some_2 l k Hk) as [ek Hek].
  destruct (loop (dedupInnerStep k) _ _) as [r|] eqn:E; [|done].
  intros [= <-]. simpl. eapply dedupInner_id; [exact Hek| |exact E].
  intros b eb Hb Heb. by eapply (Hd k b).
Qed.

(** X9.  A list of edges without equal entries passes the deduplication
    unchanged, in the same order. *)
Theorem dedupEdges_distinct (l : list Edge) :
  pairwiseDistinct l -> dedupEdges l = Some l.
Proof. apply dedupEdges_distinct_id. Qed.

Lemma dedupEdges_distinct_witness :
  dedupEdges [mkEdge (mkPoint 0 0) (mkPoint 1 2); mkEdge (mkPoint 1 2) (mkPoint 3 1)]
  = Some [mkEdge (mkPoint 0 0) (mkPoint 1 2); mkEdge (mkPoint 1 2) (mkPoint 3 1)].
Proof.
  apply (dedupEdges_distinct
           [mkEdge (mkPoint 0 0) (mkPoint 1 2); mkEdge (mkPoint 1 2) (mkPoint 3 1)]).
  intros a b ea eb Hab Ha Hb.
  destruct a as [|[|a]], b as [|[|b]]; simpl in *; try lia; try done.
  by simplify_eq.
Defined.

(** X20.  Deduplicating twice is deduplicating once: what the deduplication
    returns passes it unchanged. *)
Theorem dedupEdges_idempotent (l : list Edge) :
  exists r, dedupEdges l = Some r /\ dedupEdges r = Some r.
Proof.
  destruct (dedupEdges_total l) as [r Hr]. exists r. split; [done|].
  apply dedupEdges_distinct_id. by destruct (dedupEdges_post _ _ Hr) as (_ & ? & _).
Qed.

(** ** The purge, in full *)

(** X10.  The purge keeps exactly the triangles that have no vertex [==] to
    a vertex of the super-triangle, each as often as it occurred: it drops
    no other triangle and adds none (the order is not kept). *)
Theorem purge_exact (super : Triangle) (l : list Triangle) :
  exists r,
    purge super l = Some r
    /\ r ≡ₚ filter (fun t => clean super t = true) l.
Proof.
  destruct (purge_total super l) as [r Hr]. exists r. split; [done|].
  unfold purge in Hr. apply fmap_Some in Hr as ([i r'] & Hr & ->). simpl.
  apply (loop_invariant _ (fun s =>
    (exists gone, l ≡ₚ snd s ++ gone /\ Forall (fun t => ~ clean super t = true) gone)
    /\ (forall k t, k < fst s -> snd s !! k = Some t -> clean super t = true)))
    in Hr as [[(gone & Hperm & Hgone) Hpre] Hdone].
  - simpl in *. rewrite Hperm, filter_app, (filter_none _ gone) by done.
    rewrite app_nil_r, filter_all; [done|].
    apply Forall_lookup. intros k t Hk. apply (Hpre k); [|done].
    unfold purgeStep in Hdone. simpl in Hdone.
    destruct (r' !! i) as [u|] eqn:E; [by destruct (_ && _)|].
    apply lookup_ge_None_1 in E. apply lookup_lt_Some in Hk. lia.
  - intros [j m] s' [(gone & Hperm & Hgone) Hpre]. unfold purgeStep. simpl in *.
    destruct (m !! j) as [u|] eqn:E; [|done].
    fold (clean super u). destruct (clean super u) eqn:Ec; intros [= <-]; simpl.
    + split; [by exists gone|]. intros k t Hk Ht.
      destruct (decide (k = j)) as [->|]; [congruence|]. apply (Hpre k); [lia|done].
    + split.
      * exists (u :: gone). split.
        { pose proof (swapRemove_Permutation _ _ _ E) as Hsr.
          set (sr := swapRemove j m) in *. rewrite Hperm, Hsr. simpl.
          by rewrite <- Permutation_middle. }
        constructor; [congruence|done].
      * intros k t Hk Ht. apply (Hpre k); [done|].
        rewrite swapRemove_lookup_lt in Ht; [done| |done]. by eapply lookup_lt_Some.
  - simpl. split; [|intros k t Hk; lia]. exists []. by rewrite app_nil_r.
Qed.

(** ** The sorted copy *)

Lemma pointsByX_Swap_Permutation (s : list Point) (i j : nat) :
  pointsByX_Swap s i j ≡ₚ s.
Proof.
  unfold pointsByX_Swap. destruct (s !! i) as [p|] eqn:Ei; [|done].
  destruct (s !! j) as [q|] eqn:Ej; [|done]. by apply Permutation_insert_swap.
Qed.

Lemma sort_Sort_Permutation (l l' : list Point) :
  sort_Sort pointsByX l = Some l' -> l' ≡ₚ l.
Proof.
  unfold sort_Sort. intros H. apply fmap_Some in H as ([i r] & H & ->). simpl.
  apply (loop_invariant _ (fun s => snd s ≡ₚ l)) in H as [H _]; [done| |done].
  intros s s' Hs. unfold insertionStep. case_decide; [|done].
  destruct (loop (siftStep pointsByX) _ _) as [r1|] eqn:E; [|done].
  intros [= <-]. simpl.
  apply (loop_invariant _ (fun s => snd s ≡ₚ l)) in E as [E _]; [done| |done].
  intros [k m] s2 Hm. unfold siftStep. simpl in *. destruct k as [|k]; [done|].
  destruct (pointsByX_Less m (S k) k); [|done]. intros [= <-]. simpl.
  by rewrite pointsByX_Swap_Permutation.
Qed.

(** ** The insertion loop *)

(** X11.  The result list only grows at its end while the points are
    inserted: a triangle that has been finalized is never removed, moved or
    changed by a later insertion. *)
Theorem insertAll_result_grows (pts : list Point) (ts result : list Triangle) :
  exists ts' fin, insertAll pts (ts, result) = Some (ts', result ++ fin).
Proof.
  revert ts result. induction pts as [|p pts IH]; intros ts result; cbn [insertAll].
  - exists ts, []. by rewrite app_nil_r.
  - destruct (insertPoint_total p (ts, result)) as [[ts1 result1] H1]. rewrite H1. simpl.
    apply insertPoint_inv in H1 as (kept & fin & inv & edges & _ & _ & _ & _ & _ & _ & ->).
    destruct (IH ts1 (result ++ fin)) as (ts' & fin' & ->).
    exists ts', (fin ++ fin'). by rewrite app_assoc.
Qed.

Lemma edgesOf_vertices (t : Triangle) (e : Edge) :
  e ∈ edgesOf t -> eA e ∈ vertices t /\ eB e ∈ vertices t.
Proof.
  unfold edgesOf, vertices. intros H. apply list_elem_of_In in H. simpl in H.
  destruct H as [<-|[<-|[<-|[]]]]; simpl; split;
    apply list_elem_of_In; simpl; auto.
Qed.

Lemma insertPoint_known (pts : list Point) (super : Triangle) (p : Point)
  (st st' : list Triangle * list Triangle) :
  p ∈ pts -> knownTriangles pts super st -> insertPoint p st = Some st' ->
  knownTriangles pts super st'.
Proof.
  destruct st as [ts result], st' as [ts' result']. intros Hp Hk H.
  apply insertPoint_inv in H
    as (kept & fin & inv & edges & Hperm & _ & _ & _ & Hd & -> & ->).
  destruct (dedupEdges_post _ _ Hd) as (Hsub & _).
  assert (forall u, u ∈ kept \/ u ∈ fin \/ u ∈ inv -> u ∈ ts) as Hin.
  { intros u Hu. rewrite Hperm, !elem_of_app. tauto. }
  assert (forall u w, u ∈ ts \/ u ∈ result -> w ∈ vertices u ->
            knownVertex pts super w) as Hk'.
  { intros u w Hu. apply Hk. simpl. by rewrite elem_of_app. }
  intros t v Ht Hv. simpl in Ht.
  rewrite !elem_of_app, list_elem_of_fmap in Ht.
  destruct Ht as [[Ht|(e & -> & He)]|[Ht|Ht]].
  - apply (Hk' t); auto.
  - apply (elem_of_submseteq _ _ _ He) in Hsub.
    apply list_elem_of_bind in Hsub as (u & He' & Hu).
    apply edgesOf_vertices in He' as [HA HB].
    unfold formed, vertices in Hv. simpl in Hv.
    apply list_elem_of_In in Hv. simpl in Hv.
    destruct Hv as [<-|[<-|[<-|[]]]]; [apply (Hk' u); auto..|by left].
  - apply (Hk' t); auto.
  - apply (Hk' t); auto.
Qed.

Lemma insertAll_known (all pts : list Point) (super : Triangle)
  (st st' : list Triangle * list Triangle) :
  (forall p, p ∈ pts -> p ∈ all) ->
  knownTriangles all super st -> insertAll pts st = Some st' ->
  knownTriangles all super st'.
Proof.
  revert st. induction pts as [|p pts IH]; cbn [insertAll]; intros st Hsub Hk H.
  - by injection H as <-.
  - apply bind_Some in H as (st1 & H1 & H).
    apply (IH st1); [|by eapply insertPoint_known; [apply Hsub; left|..]|done].
    intros q Hq. apply Hsub. by right.
Qed.

(** X12.  The triangulation invents no point: every vertex of every returned
    triangle is one of the input points.  (The one exception is a vertex of
    the super-triangle with a NaN coordinate, which the purge cannot
    recognise.) *)
Theorem DelaunayTriangulation_vertices
  (points : list Point) (super : Triangle) (r : list Triangle) (t : Triangle) (v : Point) :
  DelaunayTriangulation points super = Some r ->
  t ∈ r -> v ∈ vertices t ->
  v ∈ points \/ (v ∈ vertices super /\ Point_eqb v v = false).
Proof.
  unfold DelaunayTriangulation, triangulate. intros H Ht Hv.
  apply bind_Some in H as (pts & Hsort & H).
  apply bind_Some in H as ([ts result] & Hins & H).
  apply sort_Sort_Permutation in Hsort.
  destruct (purge_spec _ _ _ H t Ht) as [Hin Hc].
  apply (insertAll_known points _ (CalcCircumCircle super)) in Hins.
  - destruct (Hins t v) as [Hp|Hs]; [|done|by left|].
    { simpl. rewrite elem_of_app. apply elem_of_app in Hin. tauto. }
    right. split; [done|].
    by apply (clean_vertices (CalcCircumCircle super) t).
  - intros p Hp. by rewrite <- Hsort.
  - intros u w Hu Hw. simpl in Hu. apply list_elem_of_singleton in Hu as ->. by right.
Qed.

Lemma DelaunayTriangulation_vertices_witness :
  DelaunayTriangulation kite superT = Some kiteResult
  /\ forall t v, t ∈ kiteResult -> v ∈ vertices t ->
       v ∈ kite \/ (v ∈ vertices superT /\ Point_eqb v v = false).
Proof.
  assert (DelaunayTriangulation kite superT = Some kiteResult) as H
    by (vm_compute; reflexivity).
  split; [exact H|]. intros t v.
  apply (DelaunayTriangulation_vertices kite superT kiteResult t v H).
Defined.

(** ** Triangles and points with NaN *)

(** A scan in which no triangle reacts to the point leaves the active set as
    it is, in the same order. *)
Lemma scan_untouched (p : Point) (ts result : list Triangle) (edges : list Edge)
  (fuel i : nat) :
  Forall (untouched p) ts -> i <= length ts -> length ts - i <= fuel ->
  loop (scanStep p) fuel (mkScan i ts result edges)
  = Some (mkScan (length ts) ts result edges).
Proof.
  intros Hall. revert i. induction fuel as [|fuel IH]; intros i Hi Hfuel;
    cbn [loop]; unfold scanStep at 1; cbn [sc_ts sc_i sc_result sc_edges];
    destruct (ts !! i) as [t|] eqn:E.
  - apply lookup_lt_Some in E. lia.
  - apply lookup_ge_None_1 in E. by replace i with (length ts) by lia.
  - pose proof (lookup_lt_Some _ _ _ E) as Hlt.
    rewrite Forall_lookup in Hall. destruct (Hall _ _ E) as [Hp Hc].
    unfold passed in Hp. rewrite Hp, Hc. apply IH; lia.
  - apply lookup_ge_None_1 in E. by replace i with (length ts) by lia.
Qed.

Lemma insertPoint_untouched (p : Point) (ts result : list Triangle) :
  Forall (untouched p) ts -> insertPoint p (ts, result) = Some (ts, result).
Proof.
  intros Hall. unfold insertPoint.
  rewrite scan_untouched by (done || lia). cbn [mbind option_bind sc_edges sc_ts sc_result].
  change (dedupEdges []) with (Some (@nil Edge)). simpl. by rewrite app_nil_r.
Qed.

Lemma nanX_untouched (p : Point) (t : Triangle) :
  is_nan (X p) = true -> untouched p t.
Proof.
  intros Hn. split.
  - unfold passed. by apply float_ltb_nan_r.
  - unfold CircumcircleContains, sqr. apply float_leb_nan_l, float_add_nan_l.
    by apply float_mul_nan, float_sub_nan_l.
Qed.

(** X13.  A point whose [X] is NaN is ignored: the loop iteration for it
    finalizes nothing, invalidates nothing and forms no triangle; it leaves
    the active set and the result exactly as they were. *)
Theorem insertPoint_nanX (p : Point) (st : list Triangle * list Triangle) :
  is_nan (X p) = true -> insertPoint p st = Some st.
Proof.
  intros Hn. destruct st as [ts result]. apply insertPoint_untouched.
  apply Forall_forall. intros t _. by apply nanX_untouched.
Qed.

Lemma insertPoint_nanX_witness :
  is_nan (X (mkPoint nan 1)) = true
  /\ insertPoint (mkPoint nan 1) ([CalcCircumCircle superT], [])
     = Some ([CalcCircumCircle superT], []).
Proof.
  split; [reflexivity|].
  apply (insertPoint_nanX (mkPoint nan 1) ([CalcCircumCircle superT], [])). reflexivity.
Defined.

Lemma insertAll_nanX (pts : list Point) (st : list Triangle * list Triangle) :
  Forall (fun p => is_nan (X p) = true) pts -> insertAll pts st = Some st.
Proof.
  induction 1 as [|p pts Hp _ IH]; cbn [insertAll]; [done|].
  destruct st as [ts result]. rewrite insertPoint_untouched; [done|].
  apply Forall_forall. intros t _. by apply nanX_untouched.
Qed.

(** X14.  When the [X] of every input point is NaN, the result is that for
    no points at all. *)
Theorem DelaunayTriangulation_all_nanX (points : list Point) (super : Triangle) :
  Forall (fun p => is_nan (X p) = true) points ->
  DelaunayTriangulation points super = DelaunayTriangulation [] super.
Proof.
  intros Hall. unfold DelaunayTriangulation.
  destruct (sort_Sort_total pointsByX points) as [pts Hpts]. rewrite Hpts.
  change (sort_Sort pointsByX []) with (Some (@nil Point)). simpl.
  unfold triangulate. rewrite insertAll_nanX; [done|].
  apply sort_Sort_Permutation in Hpts. by rewrite Hpts.
Qed.

Lemma DelaunayTriangulation_all_nanX_witness :
  DelaunayTriangulation [mkPoint nan 1; mkPoint nan (-3)] superT = Some [].
Proof.
  rewrite (DelaunayTriangulation_all_nanX [mkPoint nan 1; mkPoint nan (-3)] superT).
  - vm_compute. reflexivity.
  - repeat constructor.
Defined.

Lemma Computed_radius (t : Triangle) :
  Computed t -> radius t = PrimFloat.sqrt (radius2 t).
Proof. intros H. rewrite <- H. reflexivity. Qed.

Lemma nanRadius_untouched (p : Point) (t : Triangle) :
  Computed t -> is_nan (radius2 t) = true -> untouched p t.
Proof.
  intros Hc Hn. split.
  - unfold passed. apply float_ltb_nan_l, float_add_nan_r.
    rewrite (Computed_radius t Hc). by apply float_sqrt_nan.
  - unfold CircumcircleContains. by apply float_leb_nan_r.
Qed.

Lemma insertPoint_keeps (p : Point) (t : Triangle) (st st' : list Triangle * list Triangle) :
  untouched p t -> t ∈ fst st -> insertPoint p st = Some st' -> t ∈ fst st'.
Proof.
  destruct st as [ts result], st' as [ts' result']. simpl. intros [Hp Hc] Ht H.
  apply insertPoint_inv in H
    as (kept & fin & inv & edges & Hperm & _ & Hfin & Hinv & _ & -> & _).
  rewrite Hperm, !elem_of_app in Ht. rewrite elem_of_app. left.
  destruct Ht as [Ht|[Ht|Ht]]; [done| |].
  - rewrite Forall_forall in Hfin. specialize (Hfin _ Ht). congruence.
  - rewrite Forall_forall in Hinv. destruct (Hinv _ Ht). congruence.
Qed.

(** X6.  A triangle whose cached squared radius is NaN (a degenerate
    triangle such as three coincident vertices) is inert: no point passes its
    early-finalization test, its circumcircle contains no point, and once in
    the active set it is still there after any further insertions. *)
Theorem nanRadius_stays (pts : list Point) (t : Triangle)
  (st st' : list Triangle * list Triangle) :
  Computed t -> is_nan (radius2 t) = true -> t ∈ fst st ->
  insertAll pts st = Some st' ->
  t ∈ fst st'
  /\ forall p, passed p t = false /\ CircumcircleContains t p = false.
Proof.
  intros Hc Hn Ht H. split; [|intros p; by apply nanRadius_untouched].
  revert st Ht H. induction pts as [|p pts IH]; cbn [insertAll]; intros st Ht H.
  - by injection H as <-.
  - apply bind_Some in H as (st1 & H1 & H). apply (IH st1); [|done].
    eapply insertPoint_keeps; [|done|done]. by apply nanRadius_untouched.
Qed.

Lemma nanRadius_stays_witness :
  exists st',
    insertAll kite
      ([CalcCircumCircle (newTriangle (mkPoint 1 1) (mkPoint 1 1) (mkPoint 1 1));
        CalcCircumCircle superT], []) = Some st'
    /\ CalcCircumCircle (newTriangle (mkPoint 1 1) (mkPoint 1 1) (mkPoint 1 1)) ∈ fst st'.
Proof.
  eexists. split; [vm_compute; reflexivity|].
  eapply (nanRadius_stays kite
            (CalcCircumCircle (newTriangle (mkPoint 1 1) (mkPoint 1 1) (mkPoint 1 1)))
            ([CalcCircumCircle (newTriangle (mkPoint 1 1) (mkPoint 1 1) (mkPoint 1 1));
              CalcCircumCircle superT], [])).
  - reflexivity.
  - vm_compute. reflexivity.
  - apply list_elem_of_here.
  - vm_compute. reflexivity.
Defined.

(** ** The returned triangles *)

(** X16.  Every returned triangle carries the circumcircle of its own
    vertices in its cache: [CircumcircleContains] can be asked of it as it
    is. *)
Theorem DelaunayTriangulation_Computed
  (points : list Point) (super : Triangle) (r : list Triangle) (t : Triangle) :
  DelaunayTriangulation points super = Some r -> t ∈ r -> Computed t.
Proof.
  unfold DelaunayTriangulation, triangulate. intros H Ht.
  apply bind_Some in H as (pts & _ & H).
  apply bind_Some in H as ([ts result] & Hins & H).
  destruct (purge_spec _ _ _ H t Ht) as [Hin _].
  apply insertAll_Computed in Hins as [Hts Hres].
  - simpl in *. rewrite Forall_forall in Hts, Hres.
    apply elem_of_app in Hin as [Hin|Hin]; auto.
  - split; simpl; [|done]. apply Forall_singleton. apply CalcCircumCircle_Computed.
Qed.

Lemma DelaunayTriangulation_Computed_witness :
  DelaunayTriangulation kite superT = Some kiteResult
  /\ forall t, t ∈ kiteResult -> Computed t.
Proof.
  assert (DelaunayTriangulation kite superT = Some kiteResult) as H
    by (vm_compute; reflexivity).
  split; [exact H|]. intros t.
  apply (DelaunayTriangulation_Computed kite superT kiteResult t H).
Defined.

(** ** Fewer than three points *)

Lemma anchored_mono (super : Triangle) (n m : nat) (t : Triangle) :
  m <= n -> anchored super n t -> anchored super m t.
Proof.
  intros Hle H v Hv. apply H.
  apply elem_of_take in Hv as (i & Hi & Hlt). apply elem_of_take. exists i.
  split; [done|lia].
Qed.

Lemma formed_anchored (super : Triangle) (n : nat) (p : Point) (u : Triangle) (e : Edge) :
  n <= 2 -> anchored super (S n) u -> e ∈ edgesOf u -> anchored super n (formed p e).
Proof.
  intros Hn Hu He v Hv. unfold anchored, vertices in *.
  apply list_elem_of_In in He. simpl in He.
  assert (forall w, In w (take (S n) [tA u; tB u; tC u]) -> w ∈ vertices super) as Hu'.
  { intros w Hw. apply Hu. by apply list_elem_of_In. }
  apply list_elem_of_In in Hv.
  destruct n as [|[|[|n]]]; [done| | |lia]; simpl in Hu', Hv;
    destruct He as [<-|[<-|[<-|[]]]]; simpl in Hv;
    repeat (destruct Hv as [<-|Hv]; [apply Hu'; tauto|]); done.
Qed.

Lemma insertPoint_anchored (super : Triangle) (n : nat) (p : Point)
  (st st' : list Triangle * list Triangle) :
  n <= 2 ->
  (forall t, t ∈ fst st ++ snd st -> anchored super (S n) t) ->
  insertPoint p st = Some st' ->
  forall t, t ∈ fst st' ++ snd st' -> anchored super n t.
Proof.
  destruct st as [ts result], st' as [ts' result']. simpl. intros Hn Hall H.
  apply insertPoint_inv in H
    as (kept & fin & inv & edges & Hperm & _ & _ & _ & Hd & -> & ->).
  destruct (dedupEdges_post _ _ Hd) as (Hsub & _).
  assert (forall u, u ∈ kept \/ u ∈ fin \/ u ∈ inv -> anchored super (S n) u) as Hin.
  { intros u Hu. apply Hall. rewrite Hperm, !elem_of_app. tauto. }
  intros t Ht. rewrite !elem_of_app, list_elem_of_fmap in Ht.
  destruct Ht as [[Ht|(e & -> & He)]|[Ht|Ht]].
  - apply (anchored_mono super (S n)); [lia|auto].
  - apply (elem_of_submseteq _ _ _ He) in Hsub.
    apply list_elem_of_bind in Hsub as (u & He' & Hu).
    apply (formed_anchored super n p u); auto.
  - apply (anchored_mono super (S n)); [lia|]. apply Hall. rewrite elem_of_app. tauto.
  - apply (anchored_mono super (S n)); [lia|auto].
Qed.

Lemma insertAll_anchored (super : Triangle) (pts : list Point) (n : nat)
  (st st' : list Triangle * list Triangle) :
  length pts + n <= 3 ->
  (forall t, t ∈ fst st ++ snd st -> anchored super (length pts + n) t) ->
  insertAll pts st = Some st' ->
  forall t, t ∈ fst st' ++ snd st' -> anchored super n t.
Proof.
  revert st. induction pts as [|p pts IH]; cbn [insertAll length]; intros st Hn Hall H.
  - by injection H as <-.
  - apply bind_Some in H as (st1 & H1 & H). apply (IH st1); [lia| |done].
    eapply insertPoint_anchored; [|exact Hall|exact H1]. lia.
Qed.

(** X15.  With fewer than three input points and a super-triangle without
    NaN coordinates the result is empty: every triangle that two insertions
    can form still has a vertex of the super-triangle, and the purge removes
    it. *)
Theorem DelaunayTriangulation_few_points (points : list Point) (super : Triangle) :
  length points <= 2 ->
  Forall (fun v => Point_eqb v v = true) (vertices super) ->
  DelaunayTriangulation points super = Some [].
Proof.
  intros Hlen Hself.
  unfold DelaunayTriangulation.
  destruct (sort_Sort_total pointsByX points) as [pts Hsort]. rewrite Hsort. simpl.
  destruct (triangulate_total pts super) as [r Hr]. rewrite Hr. f_equal.
  destruct r as [|t r]; [done|]. exfalso.
  unfold triangulate in Hr.
  apply bind_Some in Hr as ([ts result] & Hins & H).
  apply sort_Sort_Permutation, Permutation_length in Hsort.
  destruct (purge_spec _ _ _ H t) as [Hin Hc]; [apply list_elem_of_here|].
  assert (forall u, u ∈ ts ++ result -> anchored (CalcCircumCircle super) 1 u) as Hanch.
  { apply (insertAll_anchored (CalcCircumCircle super) pts 1
             ([CalcCircumCircle super], []) (ts, result)); [lia| |done].
    intros u Hu v Hv. simpl in Hu. apply list_elem_of_singleton in Hu as ->.
    by apply subseteq_take in Hv. }
  assert (tA t ∈ vertices super) as HA.
  { apply (Hanch t); [|apply list_elem_of_here].
    rewrite elem_of_app. apply elem_of_app in Hin. tauto. }
  pose proof (clean_vertices _ _ (tA t) (tA t) Hc (list_elem_of_here _ _) HA) as Hf.
  rewrite Forall_forall in Hself. rewrite (Hself _ HA) in Hf. done.
Qed.

Lemma DelaunayTriangulation_few_points_witness :
  DelaunayTriangulation [mkPoint 1 2; mkPoint 0 1] superT = Some [].
Proof.
  apply (DelaunayTriangulation_few_points [mkPoint 1 2; mkPoint 0 1] superT).
  - simpl. lia.
  - repeat constructor.
Defined.

(** ** One insertion *)

(** X17.  What one insertion of [p] does to the active set [ts]: every
    triangle of the new active set is either an old one that [p] leaves
    alone (it neither passes its early-finalization test nor lies in its
    circumcircle), or a new one with [p] as vertex [C], built on an edge of
    an old triangle whose circumcircle contains [p]; and every old triangle
    is still active, or has moved to the result, or contained [p]. *)
Theorem insertPoint_post (p : Point) (ts result ts' result' : list Triangle) :
  insertPoint p (ts, result) = Some (ts', result') ->
  (forall t, t ∈ ts' ->
     (t ∈ ts /\ passed p t = false /\ CircumcircleContains t p = false)
     \/ (tC t = p /\ Computed t
         /\ exists u, u ∈ ts /\ CircumcircleContains u p = true
                      /\ mkEdge (tA t) (tB t) ∈ edgesOf u))
  /\ (forall t, t ∈ ts ->
        t ∈ ts' \/ t ∈ result' \/ CircumcircleContains t p = true).
Proof.
  intros H. apply insertPoint_inv in H
    as (kept & fin & inv & edges & Hperm & Hkept & Hfin & Hinv & Hd & -> & ->).
  destruct (dedupEdges_post _ _ Hd) as (Hsub & _).
  rewrite Forall_forall in Hkept, Hinv. split.
  - intros t Ht. rewrite elem_of_app, list_elem_of_fmap in Ht.
    destruct Ht as [Ht|(e & -> & He)].
    + left. destruct (Hkept _ Ht). split; [|done].
      rewrite Hperm, elem_of_app. by left.
    + right. split; [done|]. split; [apply CalcCircumCircle_Computed|].
      apply (elem_of_submseteq _ _ _ He) in Hsub.
      apply list_elem_of_bind in Hsub as (u & He' & Hu).
      exists u. split; [rewrite Hperm, !elem_of_app; tauto|].
      split; [by destruct (Hinv _ Hu)|]. simpl. by destruct e.
  - intros t Ht. rewrite Hperm, !elem_of_app in Ht. rewrite !elem_of_app.
    destruct Ht as [Ht|[Ht|Ht]]; [tauto|tauto|].
    right. right. by destruct (Hinv _ Ht).
Qed.

Lemma insertPoint_post_witness :
  exists ts' result',
    insertPoint (mkPoint 0 1) ([CalcCircumCircle superT], []) = Some (ts', result')
    /\ forall t, t ∈ ts' ->
         (t ∈ [CalcCircumCircle superT] /\ passed (mkPoint 0 1) t = false
          /\ CircumcircleContains t (mkPoint 0 1) = false)
         \/ (tC t = mkPoint 0 1 /\ Computed t
             /\ exists u, u ∈ [CalcCircumCircle superT]
                          /\ CircumcircleContains u (mkPoint 0 1) = true
                          /\ mkEdge (tA t) (tB t) ∈ edgesOf u).
Proof.
  eexists. eexists. split; [vm_compute; reflexivity|].
  eapply (insertPoint_post (mkPoint 0 1) [CalcCircumCircle superT] []).
  vm_compute. reflexivity.
Defined.

(** ** The sweep *)

Lemma SFcompare_Eq_r (a b c : spec_float) :
  SFcompare b c = Some Eq -> SFcompare a c = SFcompare a b.
Proof.
  intros H. assert (sameValue b c) as Hs.
  { apply SFeqb_sameValue. unfold SFeqb. by rewrite H. }
  destruct b as [sb|sb| |sb mb eb], c as [sc|sc| |sc mc ec]; simpl in Hs;
    try done; try (by destruct a); try (by subst).
  by destruct Hs as (-> & -> & ->).
Qed.

Lemma float_ltb_leb_trans (x y z : float) :
  (x <? y)%float = true -> (y <=? z)%float = true -> (x <? z)%float = true.
Proof.
  rewrite float_leb_ltb_eqb, orb_true_iff. intros H1 [H2|H2].
  - by eapply float_ltb_trans.
  - rewrite FloatAxioms.ltb_spec in *. rewrite FloatAxioms.eqb_spec in H2.
    unfold SFltb, SFeqb in *.
    destruct (SFcompare (Prim2SF y) (Prim2SF z)) as [[]|] eqn:E; try done.
    by rewrite (SFcompare_Eq_r _ _ _ E).
Qed.

(** X18.  The early-finalization test is monotone along the sweep: a
    triangle that a point passes is passed by every point whose [X] is at
    least as large. *)
Theorem passed_monotone (p q : Point) (t : Triangle) :
  passed p t = true -> (X p <=? X q)%float = true -> passed q t = true.
Proof. unfold passed. apply float_ltb_leb_trans. Qed.

Lemma passed_monotone_witness :
  passed (mkPoint 1 0)
    (CalcCircumCircle (newTriangle (mkPoint (-10) 0) (mkPoint (-8) (-4)) (mkPoint (-2) 4)))
  = true
  /\ passed (mkPoint 3 7)
       (CalcCircumCircle (newTriangle (mkPoint (-10) 0) (mkPoint (-8) (-4)) (mkPoint (-2) 4)))
     = true.
Proof.
  split; [reflexivity|].
  apply (passed_monotone (mkPoint 1 0) (mkPoint 3 7)); reflexivity.
Defined.

(** ** The first insertion *)

Lemma edgesOf_distinct (t : Triangle) :
  Point_eqb (tA t) (tB t) = false -> Point_eqb (tA t) (tC t) = false ->
  Point_eqb (tB t) (tC t) = false -> pairwiseDistinct (edgesOf t).
Proof.
  intros Hab Hac Hbc a b ea eb Hlt Ha Hb. unfold edgesOf in *.
  assert (Point_eqb (tB t) (tA t) = false) as Hba by (by rewrite Point_eqb_sym).
  assert (Point_eqb (tC t) (tA t) = false) as Hca by (by rewrite Point_eqb_sym).
  assert (Point_eqb (tC t) (tB t) = false) as Hcb by (by rewrite Point_eqb_sym).
  destruct a as [|[|[|a]]], b as [|[|[|b]]]; simpl in Ha, Hb; try lia; try done;
    simplify_eq; unfold isEqual; simpl;
    rewrite ?Hab, ?Hac, ?Hbc, ?Hba, ?Hca, ?Hcb, ?andb_false_r; done.
Qed.

(** X19.  Inserting a point into an active set that holds one triangle with
    three different vertices, whose circumcircle contains the point and whose
    early-finalization test the point does not pass (the first insertion into
    the super-triangle), replaces the triangle by the three triangles on its
    edges A-B, A-C and B-C, in this order, and finalizes nothing. *)
Theorem insertPoint_first (p : Point) (t : Triangle) :
  passed p t = false -> CircumcircleContains t p = true ->
  Point_eqb (tA t) (tB t) = false -> Point_eqb (tA t) (tC t) = false ->
  Point_eqb (tB t) (tC t) = false ->
  insertPoint p ([t], [])
  = Some ([CalcCircumCircle (newTriangle (tA t) (tB t) p);
           CalcCircumCircle (newTriangle (tA t) (tC t) p);
           CalcCircumCircle (newTriangle (tB t) (tC t) p)], []).
Proof.
  intros Hp Hc Hab Hac Hbc. unfold insertPoint. cbn [length loop].
  unfold scanStep at 1. cbn [sc_ts sc_i sc_result sc_edges lookup list_lookup].
  unfold passed in Hp. rewrite Hp, Hc.
  change (swapRemove 0 [t]) with (@nil Triangle).
  unfold scanStep at 1. cbn [sc_ts sc_i sc_result sc_edges lookup list_lookup mbind option_bind app].
  rewrite (dedupEdges_distinct_id (edgesOf t)) by (by apply edgesOf_distinct).
  reflexivity.
Qed.

Lemma insertPoint_first_witness :
  insertPoint (mkPoint 0 1) ([CalcCircumCircle superT], [])
  = Some ([CalcCircumCircle (newTriangle (mkPoint 0 50) (mkPoint 50 (-50)) (mkPoint 0 1));
           CalcCircumCircle (newTriangle (mkPoint 0 50) (mkPoint (-50) (-50)) (mkPoint 0 1));
           CalcCircumCircle (newTriangle (mkPoint 50 (-50)) (mkPoint (-50) (-50)) (mkPoint 0 1))],
          []).
Proof.
  apply (insertPoint_first (mkPoint 0 1) (CalcCircumCircle superT)); reflexivity.
Defined.
